(** * gen_known_imports: a model of the generator and its properties

    The program under study is
    [internal/language/proto/gen/gen_known_imports.go]: it reads
    [proto.csv], builds an ordered list of (import, label) bindings and
    writes a generated Go file.  The function [run] is embedded below with
    explicit state passing over a small model of the file system.  The
    pieces of the Go standard library that decide what [run] does
    ([encoding/csv] as configured on lines 100-103, [os.Open],
    [ioutil.WriteFile]) are modelled next to it. *)

From Stdlib Require Import ZArith Ascii String List Lia.
From stdpp Require Import base gmap strings list.

Local Open Scope string_scope.
Local Open Scope list_scope.
Local Open Scope Z_scope.

(** ** Characters used by the reader and by the template *)

Definition LF : ascii := "010"%char.
Definition CR : ascii := "013"%char.
Definition TAB : ascii := "009"%char.
Definition DQUOTE : ascii := "034"%char.
Definition COMMA : ascii := ","%char.
Definition HASH : ascii := "#"%char.

(** * encoding/csv

    The reader of Go's [encoding/csv] (the implementation of Go 1.10 and
    later), restricted to the options [run] leaves at their defaults:
    [Comma] is [','], [LazyQuotes] and [TrimLeadingSpace] are false.
    [Comment] and [FieldsPerRecord] are fields of the reader, as in Go;
    [Comment] is taken to be a character the package accepts as a comment
    character, as [#] is.  The package documents it so: lines beginning
    with the Comment character without preceding whitespace are ignored.
    A [csv.ParseError] is represented by its [Err] field; the line and
    column it carries are left out.  Errors of the underlying reader other
    than [io.EOF] are not modelled: the whole input can be read. *)

Module csv.

Inductive ParseError : Type :=
| ErrBareQuote      (* a bare quote in a non-quoted field *)
| ErrQuote          (* an extraneous or missing quote in a quoted field *)
| ErrFieldCount.    (* wrong number of fields *)

Record Reader : Type := mkReader {
  Comment : ascii;          (* the zero character: no comment lines *)
  FieldsPerRecord : Z
}.

(** The input cut after every ['\n']; the last piece has no ['\n'] when the
    input does not end with one.  This is what successive
    [bufio.Reader.ReadSlice('\n')] calls deliver. *)
Fixpoint splitLines (s : string) : list string :=
  match s with
  | EmptyString => []
  | String c t =>
      if Ascii.eqb c LF then String LF EmptyString :: splitLines t
      else match splitLines t with
           | [] => [String c EmptyString]
           | l :: ls => String c l :: ls
           end
  end.

(** [Reader.readLine] turns a final ["\r\n"] into ["\n"] and drops a
    ['\r'] that stands right before the end of the input. *)
Fixpoint normLine (l : string) : string :=
  match l with
  | EmptyString => EmptyString
  | String c t =>
      if Ascii.eqb c CR
      then match t with
           | EmptyString => EmptyString
           | String c' EmptyString =>
               if Ascii.eqb c' LF then t else String c (normLine t)
           | _ => String c (normLine t)
           end
      else String c (normLine t)
  end.

(** All the lines [readLine] returns before [io.EOF]. *)
Definition lines (input : string) : list string :=
  map normLine (splitLines input).

(** [nextRune(line) == r.Comment], with [r.Comment != 0]. *)
Definition isComment (r : Reader) (line : string) : bool :=
  negb (Ascii.eqb (Comment r) Ascii.zero) &&
  match line with
  | EmptyString => false
  | String c _ => Ascii.eqb c (Comment r)
  end.

(** [len(line) == lengthNL(line)]: the line is empty or a lone ['\n']. *)
Definition isEmptyLine (line : string) : bool :=
  match line with
  | EmptyString => true
  | String c EmptyString => Ascii.eqb c LF
  | _ => false
  end.

(** Where the field loop of [readRecord] stands inside a line. *)
Inductive place : Type :=
| Bare (atStart : bool)   (* in a non-quoted field; [atStart]: no byte of it read yet *)
| Quoted                  (* inside a quoted field *)
| QuoteSeen.              (* just after a quote met inside a quoted field *)

(** What one call of [readRecord] delivers: [io.EOF], a record together
    with the lines not yet read, or a parse error. *)
Inductive step : Type :=
| Eof
| Next (fields : list string) (rest : list string)
| Bad (e : ParseError).

(** The [parseField] loop of [readRecord].  [line] is what is left of the
    current line, [rest] the lines after it, [fields] the fields completed
    so far and [field] the bytes of the field being read.  A quoted field
    that reaches the end of its line goes on with the next line. *)
Fixpoint parseRecord (rest : list string) {struct rest}
  : place -> list string -> string -> string -> step :=
  fix scan (p : place) (fields : list string) (field : string)
           (line : string) {struct line} : step :=
    match line with
    | EmptyString =>
        match p with
        | Quoted =>
            match rest with
            | [] => Bad ErrQuote
            | l :: rest' => parseRecord rest' Quoted fields field l
            end
        | _ => Next (fields ++ [field]) rest
        end
    | String c l =>
        match p with
        | Bare atStart =>
            if Ascii.eqb c COMMA then scan (Bare true) (fields ++ [field]) EmptyString l
            else if Ascii.eqb c LF && bool_decide (l = EmptyString)
                 then Next (fields ++ [field]) rest
            else if Ascii.eqb c DQUOTE
                 then (if atStart then scan Quoted fields EmptyString l
                       else Bad ErrBareQuote)
            else scan (Bare false) fields (field +:+ String c EmptyString) l
        | Quoted =>
            if Ascii.eqb c DQUOTE then scan QuoteSeen fields field l
            else scan Quoted fields (field +:+ String c EmptyString) l
        | QuoteSeen =>
            if Ascii.eqb c DQUOTE
            then scan Quoted fields (field +:+ String DQUOTE EmptyString) l
            else if Ascii.eqb c COMMA
                 then scan (Bare true) (fields ++ [field]) EmptyString l
            else if Ascii.eqb c LF && bool_decide (l = EmptyString)
                 then Next (fields ++ [field]) rest
            else Bad ErrQuote
        end
    end.

(** The first part of [readRecord]: skip comment lines and empty lines,
    then read the fields of one record. *)
Fixpoint readFields (r : Reader) (ls : list string) : step :=
  match ls with
  | [] => Eof
  | l :: rest =>
      if isComment r l then readFields r rest
      else if isEmptyLine l then readFields r rest
      else parseRecord rest (Bare true) [] EmptyString l
  end.

(** [readRecord]: the fields, then the check against [FieldsPerRecord]
    when it is positive. *)
Definition readRecord (r : Reader) (ls : list string) : step :=
  match readFields r ls with
  | Next fields rest =>
      if (0 <? FieldsPerRecord r) &&
         negb (Z.of_nat (length fields) =? FieldsPerRecord r)
      then Bad ErrFieldCount
      else Next fields rest
  | s => s
  end.

(** [FieldsPerRecord == 0]: the first record fixes the number of fields. *)
Definition afterRecord (r : Reader) (fields : list string) : Reader :=
  if FieldsPerRecord r =? 0
  then {| Comment := Comment r; FieldsPerRecord := Z.of_nat (length fields) |}
  else r.

(** The loop of [ReadAll].  Every record takes at least one line, so
    fuel beyond the number of lines is never used up ([readAll_fuel] and
    [ReadAllLines_unfold] below). *)
Fixpoint readAll (fuel : nat) (r : Reader) (ls : list string)
  : ParseError + list (list string) :=
  match fuel with
  | O => inr []
  | S fuel' =>
      match readRecord r ls with
      | Eof => inr []
      | Bad e => inl e
      | Next fields rest =>
          match readAll fuel' (afterRecord r fields) rest with
          | inl e => inl e
          | inr records => inr (fields :: records)
          end
      end
  end.

Definition ReadAllLines (r : Reader) (ls : list string)
  : ParseError + list (list string) :=
  readAll (S (length ls)) r ls.

(** [Reader.ReadAll] on a reader over [input]. *)
Definition ReadAll (r : Reader) (input : string)
  : ParseError + list (list string) :=
  ReadAllLines r (lines input).

(** ** Notions the statements about the reader use *)

(** The rows of an input, as the reader delimits them: the records
    [readFields] delivers one after the other, up to the end of the input
    or to the first quoting error.  The number of fields is not looked
    at. *)
Fixpoint rowsFrom (fuel : nat) (r : Reader) (ls : list string)
  : list (list string) :=
  match fuel with
  | O => []
  | S fuel' =>
      match readFields r ls with
      | Next fields rest => fields :: rowsFrom fuel' r rest
      | _ => []
      end
  end.

Definition rowsOfLines (r : Reader) (ls : list string) : list (list string) :=
  rowsFrom (S (length ls)) r ls.

Definition rows (r : Reader) (input : string) : list (list string) :=
  rowsOfLines r (lines input).

(** No byte of [s] is a double quote. *)
Fixpoint noQuote (s : string) : bool :=
  match s with
  | EmptyString => true
  | String c t => negb (Ascii.eqb c DQUOTE) && noQuote t
  end.

(** The fields of what is left of a line without quotes: the pieces
    between the commas, the line feed that ends the line left out.
    [field] holds the bytes of the first piece read so far. *)
Fixpoint commaFields (field : string) (l : string) : list string :=
  match l with
  | EmptyString => [field]
  | String c t =>
      if Ascii.eqb c COMMA then field :: commaFields EmptyString t
      else if Ascii.eqb c LF && bool_decide (t = EmptyString) then [field]
      else commaFields (field +:+ String c EmptyString) t
  end.

(** A line that is neither a comment nor empty. *)
Definition isDataLine (r : Reader) (l : string) : bool :=
  negb (isComment r l) && negb (isEmptyLine l).

(** No byte of [s] is a line feed. *)
Fixpoint noLF (s : string) : bool :=
  match s with
  | EmptyString => true
  | String c t => negb (Ascii.eqb c LF) && noLF t
  end.

(** [s] is empty or its last byte is a line feed: what follows [s] in an
    input starts a line. *)
Fixpoint endsLine (s : string) : bool :=
  match s with
  | EmptyString => true
  | String c EmptyString => Ascii.eqb c LF
  | String _ t => endsLine t
  end.

(** The wording of the specification for a comment line: the first
    character that is not a blank is [#]. *)
Fixpoint firstNonBlankIsHash (l : string) : bool :=
  match l with
  | EmptyString => false
  | String c t =>
      if Ascii.eqb c " "%char || Ascii.eqb c TAB then firstNonBlankIsHash t
      else Ascii.eqb c HASH
  end.

End csv.

(** * Errors, panics and the file system *)

Inductive Errno : Type := ENOENT | EACCES.

(** The values of Go's [error] interface that [run] can return. *)
Inductive error : Type :=
| Errorf (msg : string)                         (* fmt.Errorf, with the formatted message *)
| PathError (op path : string) (errno : Errno)  (* *os.PathError *)
| CsvError (e : csv.ParseError).                (* *csv.ParseError *)

(** A run-time panic: indexing a slice of length [len] at [index]. *)
Inductive panic : Type :=
| IndexOutOfRange (index : Z) (len : nat).

(** How a call ends: it returns a value, it returns a non-nil [error], or
    it panics. *)
Inductive outcome (A : Type) : Type :=
| Ok (a : A)
| Err (e : error)
| Panic (p : panic).
Arguments Ok {A} a.
Arguments Err {A} e.
Arguments Panic {A} p.

(** The operations on files, in the order in which they are attempted. *)
Inductive event : Type :=
| EvOpen (path : string)
| EvRead (path : string)
| EvClose (path : string)
| EvWriteFile (path : string) (data : string).

(** The file system: the contents of the files that exist, the paths that
    cannot be written, and the operations attempted so far. *)
Record World : Type := mkWorld {
  files : gmap string string;
  readonly : gset string;
  trace : list event
}.

Definition log (e : event) (w : World) : World :=
  {| files := files w; readonly := readonly w; trace := trace w ++ [e] |}.

(** Computations that act on the file system. *)
Definition M (A : Type) : Type := World -> outcome A * World.

Definition throw {A} (e : error) : M A := fun w => (Err e, w).
Definition lift {A} (o : outcome A) : M A := fun w => (o, w).
Definition bind {A B} (m : M A) (k : A -> M B) : M B :=
  fun w =>
    match m w with
    | (Ok a, w') => k a w'
    | (Err e, w') => (Err e, w')
    | (Panic p, w') => (Panic p, w')
    end.

Notation "x <- m ;; k" := (bind m (fun x => k))
  (at level 100, m at next level, right associativity).

(** The same sequencing for code that touches no file. *)
Definition obind {A B} (o : outcome A) (k : A -> outcome B) : outcome B :=
  match o with
  | Ok a => k a
  | Err e => Err e
  | Panic p => Panic p
  end.

Notation "x <~ o ;; k" := (obind o (fun x => k))
  (at level 100, o at next level, right associativity).

(** An open [*os.File]: its path and the bytes a reader gets from it. *)
Record File : Type := mkFile { fileName : string; fileData : string }.

(** [os.Open]: it fails when there is no file at [path]. *)
Definition os_Open (path : string) : M File :=
  fun w =>
    match files w !! path with
    | Some data => (Ok (mkFile path data), log (EvOpen path) w)
    | None => (Err (PathError "open" path ENOENT), log (EvOpen path) w)
    end.

(** [csv.NewReader(bufio.NewReader(f))] with the two fields set by the
    caller, then [r.ReadAll()].  Both results of [ReadAll] are returned to
    the caller, which looks at the error after closing the file. *)
Definition csv_ReadAll (r : csv.Reader) (f : File)
  : M (csv.ParseError + list (list string)) :=
  fun w => (Ok (csv.ReadAll r (fileData f)), log (EvRead (fileName f)) w).

(** [f.Close()]; its result is dropped by the caller. *)
Definition File_Close (f : File) : M unit :=
  fun w => (Ok tt, log (EvClose (fileName f)) w).

(** [ioutil.WriteFile]: it creates or truncates the file and writes
    [data], or fails when the path cannot be written. *)
Definition ioutil_WriteFile (path : string) (data : string) : M unit :=
  fun w =>
    if bool_decide (path ∈ readonly w)
    then (Err (PathError "open" path EACCES), log (EvWriteFile path data) w)
    else (Ok tt,
          log (EvWriteFile path data)
            {| files := <[path := data]> (files w);
               readonly := readonly w;
               trace := trace w |}).

(** * internal/label *)

Module label.

(** Modelled from the spec: the package [internal/label] is not among the
    sources.  A [Label] is a repository, a package path and a target name
    (the three fields the template of [run] prints, and the three
    arguments of [label.New]); [Equal] is structural equality on them. *)
Record Label : Type := New { Repo : string; Pkg : string; Name : string }.

Definition Equal (l other : Label) : bool :=
  bool_decide (Repo l = Repo other) &&
  bool_decide (Pkg l = Pkg other) &&
  bool_decide (Name l = Name other).

End label.

(** * gen_known_imports.go *)

Record binding : Type := mkBinding {
  Import : string;
  Label : label.Label
}.

Record data : Type := mkData {
  ProtoCsv : string;
  Package : string;
  Var : string;
  Bindings : list binding
}.

(** The flags of [run] once [fs.Parse] has filled them in. *)
Record flags : Type := mkFlags {
  protoCsvPath : string;
  knownImportsPath : string;
  package_ : string;
  var_ : string;
  keyColumn : Z;
  valueColumn : Z
}.

(** The defaults given to [fs.StringVar] and [fs.IntVar]. *)
Definition defaultFlags : flags :=
  {| protoCsvPath := ""; knownImportsPath := ""; package_ := ""; var_ := "";
     keyColumn := 0; valueColumn := 1 |}.

(** [rec[i]] on a slice: a panic when [i] is out of range. *)
Definition index (rec : list string) (i : Z) : outcome string :=
  if i <? 0 then Panic (IndexOutOfRange i (length rec))
  else match rec !! Z.to_nat i with
       | Some s => Ok s
       | None => Panic (IndexOutOfRange i (length rec))
       end.

(** ** Stand-ins used in the examples

    The statements below hold for every [label.Parse], [Label.String] and
    [strconv.Quote].  The examples need particular ones: a parser for the
    two forms [//pkg:name] and [@repo//pkg:name], the matching printer, and
    a [Quote] for strings that need no escape. *)

Module sample.

Fixpoint cut (c : ascii) (s : string) : option (string * string) :=
  match s with
  | EmptyString => None
  | String a t =>
      if Ascii.eqb a c then Some (EmptyString, t)
      else match cut c t with
           | Some (before, after) => Some (String a before, after)
           | None => None
           end
  end.

Definition pkgName (whole repo s : string) : error + label.Label :=
  match cut ":"%char s with
  | Some (pkg, name) => inr (label.New repo pkg name)
  | None => inl (Errorf ("label parse error: " +:+ whole))
  end.

Definition Parse (s : string) : error + label.Label :=
  match s with
  | String "@"%char t =>
      match cut "/"%char t with
      | Some (repo, String "/"%char rest) => pkgName s repo rest
      | _ => inl (Errorf ("label parse error: " +:+ s))
      end
  | String "/"%char (String "/"%char rest) => pkgName s EmptyString rest
  | _ => inl (Errorf ("label parse error: " +:+ s))
  end.

Definition LabelString (l : label.Label) : string :=
  (if bool_decide (label.Repo l = "") then "" else "@" +:+ label.Repo l)
  +:+ "//" +:+ label.Pkg l +:+ ":" +:+ label.Name l.

Definition Quote (s : string) : string :=
  String DQUOTE s +:+ String DQUOTE EmptyString.

(** The template engine reports no error. *)
Definition noTemplateError (d : data) : option error := None.

(** The template engine reports an error on every value. *)
Definition brokenTemplate (d : data) : option error :=
  Some (Errorf "template: known_imports.go: write failed").

(** Inputs of the examples. *)

Definition line (key value : string) : string :=
  key +:+ "," +:+ value +:+ ",x,y" +:+ String LF EmptyString.

Definition labelA : label.Label := label.New "r" "p" "a".
Definition labelB : label.Label := label.New "r" "p" "b".

Definition recordA : list string := ["a.proto"; "@r//p:a"; "x"; "y"].
Definition recordB : list string := ["b.proto"; "@r//p:b"; "x"; "y"].
Definition recordA' : list string := ["a.proto"; "@r//p:b"; "x"; "y"].
Definition recordBad : list string := ["a.proto"; "p:a"; "x"; "y"].

(** A comment, two rows, and the first row once more. *)
Definition repeated : string :=
  "# import,label" +:+ String LF EmptyString
  +:+ line "a.proto" "@r//p:a" +:+ line "b.proto" "@r//p:b"
  +:+ line "a.proto" "@r//p:a".

(** The key of the first row again, with another label. *)
Definition conflicting : string :=
  line "a.proto" "@r//p:a" +:+ line "a.proto" "@r//p:b".

(** The key of the first row again, with a value that is no label. *)
Definition unparsable : string :=
  line "a.proto" "@r//p:a" +:+ line "a.proto" "p:a".

(** The row of [recordA] with its key in quotes. *)
Definition quotedLine : string :=
  String DQUOTE "a.proto" +:+ String DQUOTE ",@r//p:a,x,y" +:+ String LF EmptyString.

(** A second row with three fields. *)
Definition short : string :=
  line "a.proto" "@r//p:a" +:+ "b.proto,@r//p:b,x" +:+ String LF EmptyString.

Definition inputPath : string := "proto.csv".
Definition outputPath : string := "known_imports.go".

Definition flagsOf (key value : Z) : flags :=
  {| protoCsvPath := inputPath; knownImportsPath := outputPath;
     package_ := "proto"; var_ := "knownImports";
     keyColumn := key; valueColumn := value |}.

(** A file system that holds the input only. *)
Definition world (content : string) : World :=
  {| files := {[ inputPath := content ]}; readonly := ∅; trace := [] |}.

(** Another one with the same input: it holds a second file, has a path
    that cannot be written, and has seen an operation already. *)
Definition busyWorld (content : string) : World :=
  {| files := <[ "BUILD" := "# build file" ]> {[ inputPath := content ]};
     readonly := {[ "BUILD" ]};
     trace := [EvOpen "BUILD"] |}.

(** The input again, in a file system where the output cannot be written. *)
Definition lockedWorld (content : string) : World :=
  {| files := {[ inputPath := content ]}; readonly := {[ outputPath ]}; trace := [] |}.

End sample.

Section Generator.

(** [label.Parse] and the [String] method of [label.Label], from
    [internal/label], and [strconv.Quote], which formats [%q]. *)
Variable Parse : string -> error + label.Label.
Variable LabelString : label.Label -> string.
Variable Quote : string -> string.

(** The error [text/template] reports while it executes [knownImportsTpl]
    on a value, if it reports one.  None is expected (the fields exist,
    [printf] gets strings, a [bytes.Buffer] accepts every write); [run]
    tests for one all the same, and so the model lets it happen. *)
Variable templateError : data -> option error.

Definition label_Parse (s : string) : outcome label.Label :=
  match Parse s with
  | inl e => Err e
  | inr l => Ok l
  end.

(** The message of line 122. *)
Definition multipleValues (imp : string) (seenLabel lbl : label.Label) : string :=
  "for key " +:+ imp +:+ ", multiple values (" +:+ LabelString seenLabel
    +:+ " and " +:+ LabelString lbl +:+ ")".

(** Lines 114-128: the loop over the records, with the map [seen] and the
    slice [data.Bindings] as they stand when the loop reaches [records].
    It returns both as they stand when the loop ends. *)
Fixpoint rangeRecords (keyColumn valueColumn : Z) (records : list (list string))
    (seen : gmap string label.Label) (bindings : list binding)
  : outcome (gmap string label.Label * list binding) :=
  match records with
  | [] => Ok (seen, bindings)
  | rec :: records' =>
      imp <~ index rec keyColumn ;;
      value <~ index rec valueColumn ;;
      lbl <~ label_Parse value ;;
      match seen !! imp with
      | Some seenLabel =>
          if negb (label.Equal seenLabel lbl)
          then Err (Errorf (multipleValues imp seenLabel lbl))
          else rangeRecords keyColumn valueColumn records' seen bindings
      | None =>
          rangeRecords keyColumn valueColumn records'
            (<[imp := lbl]> seen) (bindings ++ [mkBinding imp lbl])
      end
  end.

(** One turn of [{{range .Bindings}}]. *)
Definition renderBinding (b : binding) : string :=
  String LF (String TAB
    (Quote (Import b) +:+ ": label.New(" +:+ Quote (label.Repo (Label b))
       +:+ ", " +:+ Quote (label.Pkg (Label b))
       +:+ ", " +:+ Quote (label.Name (Label b)) +:+ ")"))
  +:+ ",".

Definition NL : string := String LF EmptyString.

(** The text [knownImportsTpl] produces for [d]. *)
Definition render (d : data) : string :=
  NL +:+ "// Generated by internal/language/proto/gen/gen_known_imports.go" +:+ NL
  +:+ "// From " +:+ ProtoCsv d +:+ NL
  +:+ NL
  +:+ "package " +:+ Package d +:+ NL
  +:+ NL
  +:+ "import " +:+ String DQUOTE "github.com/bazelbuild/bazel-gazelle/internal/label"
  +:+ String DQUOTE NL
  +:+ NL
  +:+ "var " +:+ Var d +:+ " = map[string]label.Label{" +:+ NL
  +:+ foldr (fun b s => renderBinding b +:+ s) EmptyString (Bindings d)
  +:+ NL +:+ "}" +:+ NL.

(** [knownImportsTpl.Execute] into an empty [bytes.Buffer]: the error,
    or the contents of the buffer. *)
Definition knownImportsTpl_Execute (d : data) : outcome string :=
  match templateError d with
  | Some err => Err err
  | None => Ok (render d)
  end.

(** Lines 108-112, with the bindings the loop has appended. *)
Definition dataOf (fl : flags) (bindings : list binding) : data :=
  {| ProtoCsv := protoCsvPath fl; Package := package_ fl;
     Var := var_ fl; Bindings := bindings |}.

(** The reader of lines 100-102. *)
Definition protoCsvReader : csv.Reader :=
  {| csv.Comment := HASH; csv.FieldsPerRecord := 4 |}.

(** [run], from line 83 on. *)
Definition run (fl : flags) : M unit :=
  if bool_decide (protoCsvPath fl = "") then throw (Errorf "-proto_csv not set")
  else if bool_decide (knownImportsPath fl = "") then throw (Errorf "-known_imports not set")
  else if bool_decide (package_ fl = "") then throw (Errorf "-package not set")
  else if bool_decide (var_ fl = "") then throw (Errorf "-var not set")
  else
    protoCsvFile <- os_Open (protoCsvPath fl) ;;
    read <- csv_ReadAll protoCsvReader protoCsvFile ;;
    _ <- File_Close protoCsvFile ;;
    match read with
    | inl err => throw (CsvError err)
    | inr records =>
        built <- lift (rangeRecords (keyColumn fl) (valueColumn fl) records ∅ []) ;;
        knownImportsBuf <- lift (knownImportsTpl_Execute (dataOf fl (snd built))) ;;
        ioutil_WriteFile (knownImportsPath fl) knownImportsBuf
    end.

(** ** The calls of [run], in order

    [run] once more, statement by statement, with the calls it makes out
    of its package recorded next to the file system, in the order in which
    the code makes them: the operations on files, every call of
    [label.Parse] and the execution of the template.  The result and the
    file system are those of [run]; the record of the calls is what tells
    where a stage that touches no file, such as the loop, stands among the
    operations on files. *)
Inductive call : Type :=
| FileOp (e : event)            (* os.Open, ReadAll on the file, Close, ioutil.WriteFile *)
| CallParse (value : string)    (* label.Parse(value) *)
| CallExecute (d : data).       (* knownImportsTpl.Execute(knownImportsBuf, d) *)

(** Computations that act on the file system and on the record of the
    calls. *)
Definition T (A : Type) : Type :=
  World * list call -> outcome A * (World * list call).

Definition tlift {A} (o : outcome A) : T A := fun s => (o, s).
Definition tbind {A B} (m : T A) (k : A -> T B) : T B :=
  fun s =>
    match m s with
    | (Ok a, s') => k a s'
    | (Err e, s') => (Err e, s')
    | (Panic p, s') => (Panic p, s')
    end.

Notation "x <<- m ;; k" := (tbind m (fun x => k))
  (at level 100, m at next level, right associativity).

(** A computation on the file system: the operations it adds to the trace
    are recorded as calls. *)
Definition operate {A} (m : M A) : T A :=
  fun s =>
    let (o, w') := m (fst s) in
    (o, (w', snd s ++ map FileOp (drop (length (trace (fst s))) (trace w')))).

(** A call that touches no file: it is recorded, and its outcome is
    passed on. *)
Definition called {A} (c : call) (o : outcome A) : T A :=
  fun s => (o, (fst s, snd s ++ [c])).

(** Lines 114-128, as in [rangeRecords]. *)
Fixpoint rangeRecordsTraced (keyColumn valueColumn : Z) (records : list (list string))
    (seen : gmap string label.Label) (bindings : list binding)
  : T (gmap string label.Label * list binding) :=
  match records with
  | [] => tlift (Ok (seen, bindings))
  | rec :: records' =>
      imp <<- tlift (index rec keyColumn) ;;
      value <<- tlift (index rec valueColumn) ;;
      lbl <<- called (CallParse value) (label_Parse value) ;;
      match seen !! imp with
      | Some seenLabel =>
          if negb (label.Equal seenLabel lbl)
          then tlift (Err (Errorf (multipleValues imp seenLabel lbl)))
          else rangeRecordsTraced keyColumn valueColumn records' seen bindings
      | None =>
          rangeRecordsTraced keyColumn valueColumn records'
            (<[imp := lbl]> seen) (bindings ++ [mkBinding imp lbl])
      end
  end.

(** [run], from line 83 on, as in [run]. *)
Definition runTraced (fl : flags) : T unit :=
  if bool_decide (protoCsvPath fl = "") then tlift (Err (Errorf "-proto_csv not set"))
  else if bool_decide (knownImportsPath fl = "")
       then tlift (Err (Errorf "-known_imports not set"))
  else if bool_decide (package_ fl = "") then tlift (Err (Errorf "-package not set"))
  else if bool_decide (var_ fl = "") then tlift (Err (Errorf "-var not set"))
  else
    protoCsvFile <<- operate (os_Open (protoCsvPath fl)) ;;
    read <<- operate (csv_ReadAll protoCsvReader protoCsvFile) ;;
    _ <<- operate (File_Close protoCsvFile) ;;
    match read with
    | inl err => tlift (Err (CsvError err))
    | inr records =>
        built <<- rangeRecordsTraced (keyColumn fl) (valueColumn fl) records ∅ [] ;;
        knownImportsBuf <<- called (CallExecute (dataOf fl (snd built)))
                              (knownImportsTpl_Execute (dataOf fl (snd built))) ;;
        operate (ioutil_WriteFile (knownImportsPath fl) knownImportsBuf)
    end.

(** ** Notions the statements use *)

(** The pair a row stands for: its key column and its parsed value
    column.  There is none when a column is missing or the value is not a
    label. *)
Definition rowBinding (keyColumn valueColumn : Z) (rec : list string)
  : option binding :=
  match index rec keyColumn, index rec valueColumn with
  | Ok imp, Ok value =>
      match Parse value with
      | inr lbl => Some (mkBinding imp lbl)
      | inl _ => None
      end
  | _, _ => None
  end.

(** The pairs of all the rows, in input order. *)
Fixpoint rowBindings (keyColumn valueColumn : Z) (records : list (list string))
  : option (list binding) :=
  match records with
  | [] => Some []
  | rec :: records' =>
      match rowBinding keyColumn valueColumn rec,
            rowBindings keyColumn valueColumn records' with
      | Some b, Some bs => Some (b :: bs)
      | _, _ => None
      end
  end.

(** A list of pairs without those whose key occurs earlier in it. *)
Fixpoint firstOccurrences (bs : list binding) : list binding :=
  match bs with
  | [] => []
  | b :: bs' => b :: filter (fun b' => Import b' ≠ Import b) (firstOccurrences bs')
  end.

(** The file system once the input at [path] has been opened, read and
    closed. *)
Definition afterReading (path : string) (w : World) : World :=
  log (EvClose path) (log (EvRead path) (log (EvOpen path) w)).

(** The four required flags are set. *)
Definition requiredFlags (fl : flags) : Prop :=
  protoCsvPath fl <> "" /\ knownImportsPath fl <> "" /\
  package_ fl <> "" /\ var_ fl <> "".

(** The required flags by name, with their values. *)
Definition requiredFlagValues (fl : flags) : list (string * string) :=
  [("proto_csv", protoCsvPath fl); ("known_imports", knownImportsPath fl);
   ("package", package_ fl); ("var", var_ fl)].

Definition isWrite (e : event) : bool :=
  match e with
  | EvWriteFile _ _ => true
  | _ => false
  end.

(** A call of a stage that comes after the reading of the input: the
    loop with its label parsing, the template, the writer. *)
Definition isLaterStage (c : call) : bool :=
  match c with
  | FileOp e => isWrite e
  | CallParse _ | CallExecute _ => true
  end.

(** The three operations on the input at [path], as calls. *)
Definition readingCalls (path : string) : list call :=
  [FileOp (EvOpen path); FileOp (EvRead path); FileOp (EvClose path)].

(** The path an operation is about. *)
Definition eventPath (e : event) : string :=
  match e with
  | EvOpen path | EvRead path | EvClose path | EvWriteFile path _ => path
  end.

(** The file system once [text] has been written at [path]. *)
Definition afterWriting (path text : string) (w : World) : World :=
  log (EvWriteFile path text)
    {| files := <[path := text]> (files w);
       readonly := readonly w;
       trace := trace w |}.

(** From [w] to [w'] no file has changed and no write was attempted. *)
Definition untouched (w w' : World) : Prop :=
  files w' = files w /\
  exists evs, trace w' = trace w ++ evs /\ Forall (fun e => isWrite e = false) evs.

(** The first required flag that is empty, in the order in which [run]
    looks at them. *)
Definition missingFlag (fl : flags) : option string :=
  fst <$> find (fun nv => bool_decide (snd nv = "")) (requiredFlagValues fl).

Definition notSet (name : string) : error :=
  Errorf ("-" +:+ name +:+ " not set").

(** The stages before the writer, in order, and the error of the first
    one that fails: the flags, opening the input, reading it, the loop
    (label parsing and conflicting keys), rendering the template. *)
Inductive firstFailure (fl : flags) (w : World) : error -> Prop :=
| FailFlags name :
    missingFlag fl = Some name ->
    firstFailure fl w (notSet name)
| FailOpen :
    missingFlag fl = None ->
    files w !! protoCsvPath fl = None ->
    firstFailure fl w (PathError "open" (protoCsvPath fl) ENOENT)
| FailRead content e :
    missingFlag fl = None ->
    files w !! protoCsvPath fl = Some content ->
    csv.ReadAll protoCsvReader content = inl e ->
    firstFailure fl w (CsvError e)
| FailLoop content records e :
    missingFlag fl = None ->
    files w !! protoCsvPath fl = Some content ->
    csv.ReadAll protoCsvReader content = inr records ->
    rangeRecords (keyColumn fl) (valueColumn fl) records ∅ [] = Err e ->
    firstFailure fl w e
| FailRender content records built e :
    missingFlag fl = None ->
    files w !! protoCsvPath fl = Some content ->
    csv.ReadAll protoCsvReader content = inr records ->
    rangeRecords (keyColumn fl) (valueColumn fl) records ∅ [] = Ok built ->
    knownImportsTpl_Execute (dataOf fl (snd built)) = Err e ->
    firstFailure fl w e.

(** Every stage before the writer has succeeded and [text] is what the
    template produced. *)
Definition allStagesPassed (fl : flags) (w : World) (text : string) : Prop :=
  requiredFlags fl /\
  exists content records built,
    files w !! protoCsvPath fl = Some content /\
    csv.ReadAll protoCsvReader content = inr records /\
    rangeRecords (keyColumn fl) (valueColumn fl) records ∅ [] = Ok built /\
    knownImportsTpl_Execute (dataOf fl (snd built)) = Ok text.

(** * Facts about the reader *)

Import csv.

Lemma parseRecord_rest rest :
  forall line p fields field f rest',
    parseRecord rest p fields field line = Next f rest' ->
    (length rest' <= length rest)%nat.
Proof.
  induction rest as [|l0 rest IH].
  - induction line as [|c l IHl]; intros p fields field f rest' H; simpl in H.
    + destruct p; inversion H; subst; simpl; lia.
    + destruct p; repeat (case_match; try discriminate; eauto);
        inversion H; subst; simpl; lia.
  - induction line as [|c l IHl]; intros p fields field f rest' H; simpl in H.
    + destruct p; try (inversion H; subst; simpl; lia).
      apply IH in H. simpl. lia.
    + destruct p; repeat (case_match; try discriminate; eauto);
        inversion H; subst; simpl; lia.
Qed.

Lemma readFields_rest r ls f rest :
  readFields r ls = Next f rest -> (length rest < length ls)%nat.
Proof.
  induction ls as [|l ls IH]; simpl; [discriminate|].
  destruct (isComment r l); [intros Hr; apply IH in Hr; lia|].
  destruct (isEmptyLine l); [intros Hr; apply IH in Hr; lia|].
  intros Hr. apply parseRecord_rest in Hr. lia.
Qed.

Lemma readRecord_rest r ls f rest :
  readRecord r ls = Next f rest -> (length rest < length ls)%nat.
Proof.
  unfold readRecord. destruct (readFields r ls) eqn:E; try discriminate.
  destruct (_ && _); [discriminate|]. intros Hr; inversion Hr; subst.
  eapply readFields_rest; eauto.
Qed.

(** Fuel beyond the number of lines makes no difference. *)
Lemma readAll_fuel n : forall m r ls,
  (length ls < n)%nat -> (length ls < m)%nat -> readAll n r ls = readAll m r ls.
Proof.
  induction n as [|n IH]; intros m r ls Hn Hm; [lia|].
  destruct m as [|m]; [lia|]. simpl.
  destruct (readRecord r ls) as [|f rest|e] eqn:E; try reflexivity.
  apply readRecord_rest in E.
  rewrite (IH m); [reflexivity|lia|lia].
Qed.

(** The loop of [ReadAll], as an equation. *)
Lemma ReadAllLines_unfold r ls :
  ReadAllLines r ls =
  match readRecord r ls with
  | Eof => inr []
  | Bad e => inl e
  | Next fields rest =>
      match ReadAllLines (afterRecord r fields) rest with
      | inl e => inl e
      | inr records => inr (fields :: records)
      end
  end.
Proof.
  unfold ReadAllLines. simpl.
  destruct (readRecord r ls) as [|f rest|e] eqn:E; try reflexivity.
  apply readRecord_rest in E.
  rewrite (readAll_fuel (length ls) (S (length rest))); [reflexivity|lia|lia].
Qed.

Lemma rowsFrom_fuel n : forall m r ls,
  (length ls < n)%nat -> (length ls < m)%nat -> rowsFrom n r ls = rowsFrom m r ls.
Proof.
  induction n as [|n IH]; intros m r ls Hn Hm; [lia|].
  destruct m as [|m]; [lia|]. simpl.
  destruct (readFields r ls) as [|f rest|e] eqn:E; try reflexivity.
  apply readFields_rest in E.
  rewrite (IH m); [reflexivity|lia|lia].
Qed.

Lemma rowsOfLines_unfold r ls :
  rowsOfLines r ls =
  match readFields r ls with
  | Next fields rest => fields :: rowsOfLines r rest
  | _ => []
  end.
Proof.
  unfold rowsOfLines. simpl.
  destruct (readFields r ls) as [|f rest|e] eqn:E; try reflexivity.
  apply readFields_rest in E.
  rewrite (rowsFrom_fuel (length ls) (S (length rest))); [reflexivity|lia|lia].
Qed.

Lemma afterRecord_fixed r fields :
  FieldsPerRecord r <> 0 -> afterRecord r fields = r.
Proof.
  intros H. unfold afterRecord. destruct (Z.eqb_spec (FieldsPerRecord r) 0); congruence.
Qed.

(** A row with the wrong number of fields stops [ReadAll]. *)
Lemma ReadAllLines_wrong_count r :
  0 < FieldsPerRecord r ->
  forall n ls,
    (length ls < n)%nat ->
    Exists (fun row => Z.of_nat (length row) <> FieldsPerRecord r) (rowsOfLines r ls) ->
    ReadAllLines r ls = inl ErrFieldCount.
Proof.
  intros Hpos. induction n as [|n IH]; intros ls Hn Hex; [lia|].
  rewrite rowsOfLines_unfold in Hex. rewrite ReadAllLines_unfold.
  unfold readRecord.
  destruct (readFields r ls) as [|f rest|e] eqn:E; try (inversion Hex; fail).
  apply readFields_rest in E.
  destruct (Z.ltb_spec 0 (FieldsPerRecord r)); [|lia].
  destruct (Z.eqb_spec (Z.of_nat (length f)) (FieldsPerRecord r)) as [Heq|Hne];
    simpl; [|reflexivity].
  rewrite afterRecord_fixed by lia.
  inversion Hex as [? ? Hbad|? ? Hrest]; subst; [congruence|].
  rewrite (IH rest); [reflexivity|lia|assumption].
Qed.

(** Every record [ReadAll] returns has [FieldsPerRecord] fields, and the
    records are the rows of the input. *)
Lemma ReadAllLines_records r :
  0 < FieldsPerRecord r ->
  forall n ls records,
    (length ls < n)%nat ->
    ReadAllLines r ls = inr records ->
    Forall (fun row => Z.of_nat (length row) = FieldsPerRecord r) records /\
    records = rowsOfLines r ls.
Proof.
  intros Hpos. induction n as [|n IH]; intros ls records Hn Hok; [lia|].
  rewrite rowsOfLines_unfold. rewrite ReadAllLines_unfold in Hok.
  unfold readRecord in Hok.
  destruct (readFields r ls) as [|f rest|e] eqn:E.
  - inversion Hok; subst. split; [constructor|reflexivity].
  - apply readFields_rest in E.
    destruct (Z.ltb_spec 0 (FieldsPerRecord r)); [|lia].
    destruct (Z.eqb_spec (Z.of_nat (length f)) (FieldsPerRecord r)) as [Heq|Hne];
      simpl in Hok; [|discriminate].
    rewrite afterRecord_fixed in Hok by lia.
    destruct (ReadAllLines r rest) as [e|records'] eqn:E'; [discriminate|].
    inversion Hok; subst.
    destruct (IH rest records') as [Hall Hrows]; [lia|assumption|].
    split; [constructor; assumption|congruence].
  - discriminate.
Qed.

(** ** Comment lines *)

Lemma readFields_skip r l ls :
  isComment r l || isEmptyLine l = true ->
  readFields r (l :: ls) = readFields r ls.
Proof.
  simpl. destruct (isComment r l); [reflexivity|].
  destruct (isEmptyLine l); [reflexivity|discriminate].
Qed.

Lemma ReadAllLines_skip r l ls :
  isComment r l || isEmptyLine l = true ->
  ReadAllLines r (l :: ls) = ReadAllLines r ls.
Proof.
  intros H. rewrite (ReadAllLines_unfold r (l :: ls)), (ReadAllLines_unfold r ls).
  unfold readRecord. rewrite readFields_skip by assumption. reflexivity.
Qed.

(** A line without quotes is read as one record, whatever follows it:
    its fields are the pieces between its commas. *)
Lemma parseRecord_plain l :
  noQuote l = true ->
  forall atStart fields field rest,
    parseRecord rest (Bare atStart) fields field l
    = Next (fields ++ commaFields field l) rest.
Proof.
  induction l as [|c l IH]; intros Hq atStart fields field rest.
  - destruct rest; reflexivity.
  - simpl in Hq. apply andb_true_iff in Hq as [Hc Hl].
    apply negb_true_iff in Hc.
    transitivity
      (if Ascii.eqb c COMMA
       then parseRecord rest (Bare true) (fields ++ [field]) EmptyString l
       else if Ascii.eqb c LF && bool_decide (l = EmptyString)
            then Next (fields ++ [field]) rest
            else parseRecord rest (Bare false) fields (field +:+ String c EmptyString) l).
    { destruct rest; simpl; rewrite Hc; reflexivity. }
    simpl commaFields.
    destruct (Ascii.eqb c COMMA).
    + rewrite IH by assumption. rewrite <- app_assoc. reflexivity.
    + destruct (Ascii.eqb c LF && bool_decide (l = EmptyString)); [reflexivity|].
      apply IH. assumption.
Qed.

(** The rows of an input without quotes are its data lines, cut at the
    commas. *)
Lemma rowsOfLines_plain r ls :
  Forall (fun l => noQuote l = true) ls ->
  rowsOfLines r ls
  = map (commaFields EmptyString) (filter (fun l => isDataLine r l = true) ls).
Proof.
  induction 1 as [|l ls Hl _ IH]; [reflexivity|].
  destruct (isDataLine r l) eqn:Ed.
  - rewrite filter_cons_True by exact Ed.
    unfold isDataLine in Ed. apply andb_true_iff in Ed as [Ec Ee].
    apply negb_true_iff in Ec, Ee.
    rewrite rowsOfLines_unfold. simpl readFields. rewrite Ec, Ee.
    rewrite parseRecord_plain by assumption. simpl. rewrite IH. reflexivity.
  - rewrite filter_cons_False by (rewrite Ed; discriminate).
    rewrite <- IH. rewrite (rowsOfLines_unfold r (l :: ls)), (rowsOfLines_unfold r ls).
    rewrite readFields_skip; [reflexivity|].
    unfold isDataLine in Ed. destruct (isComment r l); [reflexivity|].
    destruct (isEmptyLine l); [reflexivity|discriminate].
Qed.

Lemma afterRecord_Comment r fields : Comment (afterRecord r fields) = Comment r.
Proof. unfold afterRecord. destruct (_ =? _); reflexivity. Qed.

Lemma isComment_afterRecord r fields l :
  isComment (afterRecord r fields) l = isComment r l.
Proof. unfold isComment. rewrite afterRecord_Comment. reflexivity. Qed.

(** A comment line that follows lines without quotes is skipped. *)
Lemma ReadAllLines_comment before :
  Forall (fun l => noQuote l = true) before ->
  forall r c after,
    isComment r c = true ->
    ReadAllLines r (before ++ c :: after) = ReadAllLines r (before ++ after).
Proof.
  induction 1 as [|l before Hl _ IH]; intros r c after Hc; simpl.
  - apply ReadAllLines_skip. rewrite Hc. reflexivity.
  - destruct (isComment r l || isEmptyLine l) eqn:Eskip.
    + rewrite !(ReadAllLines_skip r l) by assumption. apply IH, Hc.
    + rewrite (ReadAllLines_unfold r (l :: before ++ c :: after)).
      rewrite (ReadAllLines_unfold r (l :: before ++ after)).
      unfold readRecord. simpl.
      apply orb_false_iff in Eskip as [E1 E2]. rewrite E1, E2.
      rewrite !(parseRecord_plain l Hl).
      destruct (_ && _); [reflexivity|].
      rewrite IH; [reflexivity|]. rewrite isComment_afterRecord. exact Hc.
Qed.

(** ** Lines of a concatenation *)

Lemma splitLines_nil s : splitLines s = [] -> s = EmptyString.
Proof.
  destruct s as [|c t]; [reflexivity|]. simpl.
  destruct (Ascii.eqb c LF); [discriminate|].
  destruct (splitLines t); discriminate.
Qed.

Lemma endsLine_tail c t : endsLine (String c t) = true -> endsLine t = true.
Proof. destruct t; [reflexivity|]. simpl. auto. Qed.

Lemma splitLines_app a b :
  endsLine a = true -> splitLines (a +:+ b) = splitLines a ++ splitLines b.
Proof.
  induction a as [|c t IH]; intros He; [reflexivity|].
  pose proof (endsLine_tail _ _ He) as Ht.
  simpl. destruct (Ascii.eqb c LF) eqn:Ec.
  - rewrite IH by assumption. reflexivity.
  - rewrite IH by assumption.
    destruct (splitLines t) as [|l ls] eqn:Et; [|reflexivity].
    apply splitLines_nil in Et. subst t. simpl in He. congruence.
Qed.

Lemma lines_app a b :
  endsLine a = true -> lines (a +:+ b) = lines a ++ lines b.
Proof.
  intros He. unfold lines. rewrite splitLines_app by assumption.
  apply map_app.
Qed.

Lemma splitLines_line body post :
  noLF body = true ->
  splitLines (body +:+ String LF post) = (body +:+ String LF EmptyString) :: splitLines post.
Proof.
  induction body as [|c t IH]; intros Hn; simpl.
  - reflexivity.
  - simpl in Hn. apply andb_true_iff in Hn as [Hc Ht].
    apply negb_true_iff in Hc. rewrite Hc, IH by assumption. reflexivity.
Qed.

Lemma noQuote_splitLines s :
  noQuote s = true -> Forall (fun l => noQuote l = true) (splitLines s).
Proof.
  induction s as [|c t IH]; intros Hq; simpl; [constructor|].
  simpl in Hq. apply andb_true_iff in Hq as [Hc Ht].
  destruct (Ascii.eqb c LF) eqn:Ec.
  - constructor; [reflexivity|auto].
  - specialize (IH Ht). destruct (splitLines t) as [|l ls].
    + constructor; [|constructor]. simpl. rewrite Hc. reflexivity.
    + inversion IH; subst. constructor; [|assumption].
      simpl. rewrite Hc. assumption.
Qed.

Lemma noQuote_cons c s : noQuote (String c s) = negb (Ascii.eqb c DQUOTE) && noQuote s.
Proof. reflexivity. Qed.

Lemma normLine_cons c t :
  normLine (String c t) = String c (normLine t) \/
  normLine (String c t) = EmptyString \/
  normLine (String c t) = t.
Proof.
  simpl. destruct (Ascii.eqb c CR); [|auto].
  destruct t as [|c' [|c'' t']]; auto.
  destruct (Ascii.eqb c' LF); auto.
Qed.

Lemma noQuote_normLine l : noQuote l = true -> noQuote (normLine l) = true.
Proof.
  induction l as [|c t IH]; intros Hq; [reflexivity|].
  rewrite noQuote_cons in Hq. apply andb_true_iff in Hq as [Hc Ht].
  destruct (normLine_cons c t) as [E|[E|E]]; rewrite E.
  - rewrite noQuote_cons, Hc. apply IH, Ht.
  - reflexivity.
  - exact Ht.
Qed.

Lemma noQuote_lines s :
  noQuote s = true -> Forall (fun l => noQuote l = true) (lines s).
Proof.
  intros Hq. unfold lines. apply Forall_map.
  eapply Forall_impl; [apply noQuote_splitLines, Hq|].
  intros l Hl. apply noQuote_normLine, Hl.
Qed.

Lemma rows_plain r input :
  noQuote input = true ->
  rows r input
  = map (commaFields EmptyString)
        (filter (fun l => isDataLine r l = true) (lines input)).
Proof. intros Hq. apply rowsOfLines_plain, noQuote_lines, Hq. Qed.

(** Cutting out a comment line that follows input without quotes does not
    change what [ReadAll] returns. *)
Lemma ReadAll_comment r pre body post :
  Comment r = HASH ->
  endsLine pre = true -> noQuote pre = true -> noLF body = true ->
  ReadAll r (pre +:+ String HASH body +:+ String LF post) = ReadAll r (pre +:+ post).
Proof.
  intros Hr He Hq Hn. unfold ReadAll.
  rewrite (lines_app pre post) by assumption.
  rewrite (lines_app pre (String HASH body +:+ String LF post)) by assumption.
  assert (Hc : lines (String HASH body +:+ String LF post)
               = normLine (String HASH body +:+ String LF EmptyString) :: lines post).
  { unfold lines. rewrite (splitLines_line (String HASH body) post) by exact Hn.
    reflexivity. }
  rewrite Hc. apply ReadAllLines_comment; [apply noQuote_lines, Hq|].
  unfold isComment. rewrite Hr. reflexivity.
Qed.

(** * Facts about the loop over the records *)

Lemma Equal_true l other : label.Equal l other = true <-> l = other.
Proof.
  unfold label.Equal. rewrite !andb_true_iff, !bool_decide_eq_true.
  destruct l, other; simpl. split.
  - intros [[-> ->] ->]. reflexivity.
  - intros H; inversion H; auto.
Qed.

Lemma Equal_false l other : label.Equal l other = false <-> l <> other.
Proof.
  rewrite <- Equal_true. destruct (label.Equal l other); split; congruence.
Qed.

(** What one turn of the loop does, read off the pair of the row. *)
Lemma rangeRecords_cons_pair key value rec records seen bindings b :
  rowBinding key value rec = Some b ->
  rangeRecords key value (rec :: records) seen bindings =
  match seen !! Import b with
  | Some seenLabel =>
      if negb (label.Equal seenLabel (Label b))
      then Err (Errorf (multipleValues (Import b) seenLabel (Label b)))
      else rangeRecords key value records seen bindings
  | None =>
      rangeRecords key value records (<[Import b := Label b]> seen) (bindings ++ [b])
  end.
Proof.
  unfold rowBinding. intros H. simpl.
  destruct (index rec key) as [imp| |]; try discriminate.
  destruct (index rec value) as [v| |]; try discriminate.
  simpl. unfold label_Parse.
  destruct (Parse v) as [e|lbl]; [discriminate|].
  inversion H; subst; simpl. reflexivity.
Qed.

Lemma rangeRecords_Ok_rowBinding key value rec records seen bindings st :
  rangeRecords key value (rec :: records) seen bindings = Ok st ->
  exists b, rowBinding key value rec = Some b.
Proof.
  unfold rowBinding. simpl.
  destruct (index rec key) as [imp| |]; try discriminate.
  destruct (index rec value) as [v| |]; try discriminate.
  simpl. unfold label_Parse.
  destruct (Parse v) as [e|lbl]; [discriminate|]. eauto.
Qed.

Lemma rangeRecords_app key value records1 : forall records2 seen bindings,
  rangeRecords key value (records1 ++ records2) seen bindings =
  (st <~ rangeRecords key value records1 seen bindings ;;
   rangeRecords key value records2 (fst st) (snd st)).
Proof.
  induction records1 as [|rec records1 IH]; intros records2 seen bindings.
  - reflexivity.
  - simpl.
    destruct (index rec key) as [imp| |]; try reflexivity. simpl.
    destruct (index rec value) as [v| |]; try reflexivity. simpl.
    destruct (label_Parse v) as [lbl| |]; try reflexivity. simpl.
    destruct (seen !! imp) as [seenLabel|].
    + destruct (negb (label.Equal seenLabel lbl)); [reflexivity|apply IH].
    + apply IH.
Qed.

(** ** First occurrences *)

Lemma firstOccurrences_filter (P : binding -> Prop) `{!forall b, Decision (P b)} :
  (forall b b', Import b = Import b' -> P b -> P b') ->
  forall bs, firstOccurrences (filter P bs) = filter P (firstOccurrences bs).
Proof.
  intros HP. induction bs as [|b bs IH]; [reflexivity|].
  simpl firstOccurrences at 2.
  rewrite filter_cons. rewrite (filter_cons P b).
  destruct (decide (P b)) as [Hb|Hb].
  - simpl. rewrite IH. f_equal.
    rewrite !list_filter_filter. apply list_filter_iff. intros b'. split; intros [? ?]; split; assumption.
  - rewrite IH. rewrite list_filter_filter. apply list_filter_iff.
    intros b'. split; [|intros [Hb' _]; exact Hb'].
    intros Hb'. split; [assumption|].
    intros Heq. apply Hb. eapply HP; [exact Heq|assumption].
Qed.

Lemma filter_all {A} (P : A -> Prop) `{!forall x, Decision (P x)} (l : list A) :
  Forall P l -> filter P l = l.
Proof.
  induction 1 as [|x l Hx _ IH]; [reflexivity|].
  rewrite filter_cons_True by assumption. congruence.
Qed.

Lemma firstOccurrences_subset bs b : b ∈ firstOccurrences bs -> b ∈ bs.
Proof.
  revert b. induction bs as [|b0 bs IH]; intros b; simpl; [auto|].
  rewrite !elem_of_cons, list_elem_of_filter. intros [->|[_ H]]; auto.
Qed.

Lemma firstOccurrences_NoDup bs :
  NoDup (map Import bs) -> firstOccurrences bs = bs.
Proof.
  induction bs as [|b bs IH]; intros Hnd; [reflexivity|].
  simpl in Hnd. apply NoDup_cons in Hnd as [Hnotin Hnd].
  simpl. rewrite IH by assumption. f_equal.
  apply filter_all. apply Forall_forall. intros b' Hb' Heq.
  apply Hnotin. rewrite <- Heq. apply list_elem_of_fmap. eauto.
Qed.

(** ** The state of the loop when it ends *)

Lemma rowBindings_cons key value rec records b pairs :
  rowBinding key value rec = Some b ->
  rowBindings key value records = Some pairs ->
  rowBindings key value (rec :: records) = Some (b :: pairs).
Proof. intros H1 H2. simpl. rewrite H1, H2. reflexivity. Qed.

Lemma rangeRecords_Ok key value records : forall seen bindings seen' bindings',
  rangeRecords key value records seen bindings = Ok (seen', bindings') ->
  exists pairs,
    rowBindings key value records = Some pairs /\
    bindings' =
      bindings ++ firstOccurrences (filter (fun b => seen !! Import b = None) pairs) /\
    (forall b, b ∈ pairs -> seen' !! Import b = Some (Label b)) /\
    (forall k l, seen !! k = Some l -> seen' !! k = Some l) /\
    (forall k l, seen' !! k = Some l -> seen !! k = Some l \/ mkBinding k l ∈ pairs).
Proof.
  induction records as [|rec records IH]; intros seen bindings seen' bindings' Hok.
  - simpl in Hok. inversion Hok; subst. exists []. simpl.
    rewrite app_nil_r. repeat split; auto. intros b Hb. inversion Hb.
  - destruct (rangeRecords_Ok_rowBinding _ _ _ _ _ _ _ Hok) as [b Hb].
    rewrite (rangeRecords_cons_pair _ _ _ _ _ _ _ Hb) in Hok.
    destruct (seen !! Import b) as [seenLabel|] eqn:Hseen.
    + destruct (label.Equal seenLabel (Label b)) eqn:Heq; [|discriminate].
      apply Equal_true in Heq. subst seenLabel. simpl in Hok.
      destruct (IH _ _ _ _ Hok) as (pairs & Hp & Hbs & Hall & Hmono & Hfrom).
      exists (b :: pairs). split; [apply rowBindings_cons; assumption|].
      split; [|split; [|split]].
      * rewrite filter_cons_False by congruence. exact Hbs.
      * intros b0 Hb0. apply elem_of_cons in Hb0 as [->|Hb0]; auto.
      * exact Hmono.
      * intros k l Hk. destruct (Hfrom k l Hk) as [?|?]; [auto|].
        right. apply elem_of_cons. auto.
    + destruct (IH _ _ _ _ Hok) as (pairs & Hp & Hbs & Hall & Hmono & Hfrom).
      exists (b :: pairs). split; [apply rowBindings_cons; assumption|].
      split; [|split; [|split]].
      * rewrite filter_cons_True by assumption. simpl.
        rewrite Hbs, <- app_assoc. simpl. do 2 f_equal.
        rewrite <- (firstOccurrences_filter (fun b' => Import b' ≠ Import b)) by congruence.
        rewrite list_filter_filter. f_equal. apply list_filter_iff.
        intros b'. rewrite lookup_insert_None.
        split; intros [? ?]; split; congruence.
      * intros b0 Hb0. apply elem_of_cons in Hb0 as [->|Hb0]; [|auto].
        apply Hmono. apply lookup_insert_eq.
      * intros k l Hk. apply Hmono.
        rewrite lookup_insert_ne; [assumption|congruence].
      * intros k l Hk. destruct (Hfrom k l Hk) as [Hk'|Hk'].
        -- destruct (decide (Import b = k)) as [<-|Hne].
           ++ rewrite lookup_insert_eq in Hk'. inversion Hk'; subst.
              right. apply elem_of_cons. left. destruct b; reflexivity.
           ++ rewrite lookup_insert_ne in Hk' by assumption. auto.
        -- right. apply elem_of_cons. auto.
Qed.

Lemma rowBindings_Some_inv key value rec records pairs :
  rowBindings key value (rec :: records) = Some pairs ->
  exists b pairs', pairs = b :: pairs' /\
    rowBinding key value rec = Some b /\ rowBindings key value records = Some pairs'.
Proof.
  simpl. destruct (rowBinding key value rec) as [b|]; [|discriminate].
  destruct (rowBindings key value records) as [pairs'|]; [|discriminate].
  intros H; inversion H; subst. eauto.
Qed.

(** The loop ends normally when every row has a pair and no key comes with
    two labels. *)
Lemma rangeRecords_succeeds key value records : forall pairs seen bindings,
  rowBindings key value records = Some pairs ->
  (forall b l, b ∈ pairs -> seen !! Import b = Some l -> l = Label b) ->
  (forall b1 b2, b1 ∈ pairs -> b2 ∈ pairs -> Import b1 = Import b2 -> Label b1 = Label b2) ->
  exists st, rangeRecords key value records seen bindings = Ok st.
Proof.
  induction records as [|rec records IH]; intros pairs seen bindings Hp Hseen Hfun.
  - simpl. eauto.
  - apply rowBindings_Some_inv in Hp as (b & pairs' & -> & Hb & Hp).
    rewrite (rangeRecords_cons_pair _ _ _ _ _ _ _ Hb).
    destruct (seen !! Import b) as [seenLabel|] eqn:Hs.
    + assert (seenLabel = Label b) as ->
        by (apply (Hseen b); [apply elem_of_cons; auto|assumption]).
      assert (label.Equal (Label b) (Label b) = true) as -> by (apply Equal_true; reflexivity).
      simpl. apply (IH pairs'); [assumption| |].
      * intros b0 l Hb0. apply Hseen. apply elem_of_cons; auto.
      * intros b1 b2 H1 H2. apply Hfun; apply elem_of_cons; auto.
    + apply (IH pairs'); [assumption| |].
      * intros b0 l Hb0 Hl. destruct (decide (Import b = Import b0)) as [Heq|Hne].
        -- rewrite Heq, lookup_insert_eq in Hl. inversion Hl; subst.
           apply Hfun; [apply elem_of_cons; auto|apply elem_of_cons; auto|assumption].
        -- rewrite lookup_insert_ne in Hl by assumption.
           apply (Hseen b0 l); [apply elem_of_cons; auto|assumption].
      * intros b1 b2 H1 H2. apply Hfun; apply elem_of_cons; auto.
Qed.

(** * Facts about [run] *)

Lemma index_Ok rec i :
  (0 <= i < Z.of_nat (length rec)) -> exists s, index rec i = Ok s.
Proof.
  intros [H0 H1]. unfold index.
  destruct (Z.ltb_spec i 0); [lia|].
  destruct (rec !! Z.to_nat i) as [s|] eqn:E; [eauto|].
  apply lookup_ge_None in E. lia.
Qed.

Lemma index_Panic rec i :
  ~ (0 <= i < Z.of_nat (length rec)) ->
  index rec i = Panic (IndexOutOfRange i (length rec)).
Proof.
  intros H. unfold index.
  destruct (Z.ltb_spec i 0); [reflexivity|].
  destruct (rec !! Z.to_nat i) as [s|] eqn:E; [|reflexivity].
  apply lookup_lt_Some in E. lia.
Qed.

Lemma index_Ok_range rec i s :
  index rec i = Ok s -> 0 <= i < Z.of_nat (length rec).
Proof.
  unfold index. destruct (Z.ltb_spec i 0); [discriminate|].
  destruct (rec !! Z.to_nat i) as [s'|] eqn:E; [|discriminate].
  apply lookup_lt_Some in E. lia.
Qed.

(** With both columns in range the loop never panics. *)
Lemma rangeRecords_no_panic key value n records :
  Forall (fun rec => length rec = n) records ->
  0 <= key < Z.of_nat n -> 0 <= value < Z.of_nat n ->
  forall seen bindings p, rangeRecords key value records seen bindings <> Panic p.
Proof.
  intros Hall Hk Hv. induction Hall as [|rec records Hrec _ IH]; intros seen bindings p.
  - discriminate.
  - simpl.
    destruct (index_Ok rec key) as [imp ->]; [lia|].
    destruct (index_Ok rec value) as [v ->]; [lia|]. simpl.
    unfold label_Parse. destruct (Parse v) as [e|lbl]; [discriminate|]. simpl.
    destruct (seen !! imp) as [seenLabel|]; [|apply IH].
    destruct (negb _); [discriminate|apply IH].
Qed.

Lemma run_flags_set fl :
  requiredFlags fl ->
  run fl =
  (protoCsvFile <- os_Open (protoCsvPath fl) ;;
   read <- csv_ReadAll protoCsvReader protoCsvFile ;;
   _ <- File_Close protoCsvFile ;;
   match read with
   | inl err => throw (CsvError err)
   | inr records =>
       built <- lift (rangeRecords (keyColumn fl) (valueColumn fl) records ∅ []) ;;
       knownImportsBuf <- lift (knownImportsTpl_Execute (dataOf fl (snd built))) ;;
       ioutil_WriteFile (knownImportsPath fl) knownImportsBuf
   end).
Proof.
  intros (H1 & H2 & H3 & H4). unfold run.
  rewrite !bool_decide_eq_false_2 by assumption. reflexivity.
Qed.

Lemma run_open_error fl w :
  requiredFlags fl ->
  files w !! protoCsvPath fl = None ->
  run fl w = (Err (PathError "open" (protoCsvPath fl) ENOENT),
              log (EvOpen (protoCsvPath fl)) w).
Proof.
  intros Hfl Hf. rewrite run_flags_set by assumption.
  unfold bind, os_Open. rewrite Hf. reflexivity.
Qed.

Lemma run_csv_error fl w content e :
  requiredFlags fl ->
  files w !! protoCsvPath fl = Some content ->
  ReadAll protoCsvReader content = inl e ->
  run fl w = (Err (CsvError e), afterReading (protoCsvPath fl) w).
Proof.
  intros Hfl Hf Hr. rewrite run_flags_set by assumption.
  unfold bind, os_Open, csv_ReadAll, File_Close. rewrite Hf. simpl.
  rewrite Hr. reflexivity.
Qed.

Lemma run_records fl w content records :
  requiredFlags fl ->
  files w !! protoCsvPath fl = Some content ->
  ReadAll protoCsvReader content = inr records ->
  run fl w =
  match rangeRecords (keyColumn fl) (valueColumn fl) records ∅ [] with
  | Ok built =>
      match templateError (dataOf fl (snd built)) with
      | Some err => (Err err, afterReading (protoCsvPath fl) w)
      | None =>
          ioutil_WriteFile (knownImportsPath fl) (render (dataOf fl (snd built)))
            (afterReading (protoCsvPath fl) w)
      end
  | Err e => (Err e, afterReading (protoCsvPath fl) w)
  | Panic p => (Panic p, afterReading (protoCsvPath fl) w)
  end.
Proof.
  intros Hfl Hf Hr. rewrite run_flags_set by assumption.
  unfold bind, os_Open, csv_ReadAll, File_Close. rewrite Hf. simpl.
  rewrite Hr. unfold lift, knownImportsTpl_Execute.
  destruct (rangeRecords _ _ _ _ _) as [built|e|p]; try reflexivity.
  destruct (templateError _); reflexivity.
Qed.

Lemma ReadAll_four content records :
  ReadAll protoCsvReader content = inr records ->
  Forall (fun rec => length rec = 4%nat) records.
Proof.
  intros H. unfold ReadAll in H.
  eapply (ReadAllLines_records protoCsvReader) in H as [Hall _];
    [|reflexivity|apply Nat.lt_succ_diag_r].
  eapply Forall_impl; [exact Hall|]. simpl. intros rec Hrec. lia.
Qed.

(** * The claims *)

(** C1.  The loop over the rows returns the (key column, parsed value
    column) pairs in first-occurrence order.  Let [pairs] be the pairs of
    the rows, in input order.  Whatever the loop returns is [pairs]
    without the pairs whose key occurs earlier; it does return when no key
    comes with two labels; without duplicate keys the bindings are exactly
    [pairs]; and a row whose key was already seen with an identical label
    appends nothing: the loop goes on as if the row were not there. *)
Theorem bindings_in_first_occurrence_order key value records pairs :
  rowBindings key value records = Some pairs ->
  (forall seen bindings,
      rangeRecords key value records ∅ [] = Ok (seen, bindings) ->
      bindings = firstOccurrences pairs) /\
  ((forall b1 b2, b1 ∈ pairs -> b2 ∈ pairs ->
                  Import b1 = Import b2 -> Label b1 = Label b2) ->
   exists seen,
     rangeRecords key value records ∅ [] = Ok (seen, firstOccurrences pairs)) /\
  (NoDup (map Import pairs) ->
   exists seen, rangeRecords key value records ∅ [] = Ok (seen, pairs)) /\
  (forall rec b more,
      rowBinding key value rec = Some b -> b ∈ pairs ->
      (exists st, rangeRecords key value records ∅ [] = Ok st) ->
      rangeRecords key value (records ++ rec :: more) ∅ [] =
      rangeRecords key value (records ++ more) ∅ []).
Proof.
  intros Hp.
  assert (Hshape : forall seen bindings,
            rangeRecords key value records ∅ [] = Ok (seen, bindings) ->
            bindings = firstOccurrences pairs).
  { intros seen bindings Hok.
    apply rangeRecords_Ok in Hok as (pairs' & Hp' & Hbs & _).
    rewrite Hp in Hp'. inversion Hp'; subst pairs'. rewrite Hbs. simpl.
    f_equal. apply filter_all. apply Forall_forall. intros b _.
    apply lookup_empty. }
  assert (Hrun : (forall b1 b2, b1 ∈ pairs -> b2 ∈ pairs ->
                     Import b1 = Import b2 -> Label b1 = Label b2) ->
                 exists seen,
                   rangeRecords key value records ∅ [] = Ok (seen, firstOccurrences pairs)).
  { intros Hfun.
    destruct (rangeRecords_succeeds key value records pairs ∅ [] Hp) as [[seen bs] Hok];
      [intros b l _ Hl; rewrite lookup_empty in Hl; discriminate|exact Hfun|].
    exists seen. rewrite Hok. rewrite (Hshape _ _ Hok). reflexivity. }
  split; [exact Hshape|]. split; [exact Hrun|]. split.
  - intros Hnd.
    destruct Hrun as [seen Hs];
      [|exists seen; rewrite Hs, (firstOccurrences_NoDup pairs Hnd); reflexivity].
    intros b1 b2 H1 H2 Heq.
    apply list_elem_of_lookup in H1 as [i1 H1], H2 as [i2 H2].
    assert (i1 = i2).
    { eapply NoDup_lookup; [exact Hnd| |].
      - rewrite list_lookup_fmap, H1. reflexivity.
      - rewrite list_lookup_fmap, H2. simpl. congruence. }
    congruence.
  - intros rec b more Hb Hin [[seen bs] Hok].
    rewrite !rangeRecords_app, Hok. cbn [obind fst snd].
    rewrite (rangeRecords_cons_pair _ _ _ _ _ _ _ Hb).
    apply rangeRecords_Ok in Hok as (pairs' & Hp' & _ & Hall & _).
    rewrite Hp in Hp'. inversion Hp'; subst pairs'.
    rewrite (Hall b Hin).
    assert (label.Equal (Label b) (Label b) = true) as ->
      by (apply Equal_true; reflexivity).
    reflexivity.
Qed.

Lemma rowBinding_range key value rec b :
  rowBinding key value rec = Some b ->
  0 <= key < Z.of_nat (length rec) /\ 0 <= value < Z.of_nat (length rec).
Proof.
  unfold rowBinding.
  destruct (index rec key) as [imp| |] eqn:Ek; try discriminate.
  destruct (index rec value) as [v| |] eqn:Ev; try discriminate.
  intros _. split; eapply index_Ok_range; eassumption.
Qed.

Lemma rowBindings_elem key value records : forall pairs rec b,
  rowBindings key value records = Some pairs ->
  rec ∈ records -> rowBinding key value rec = Some b -> b ∈ pairs.
Proof.
  induction records as [|rec0 records IH]; intros pairs rec b Hp Hin Hb.
  - inversion Hin.
  - apply rowBindings_Some_inv in Hp as (b0 & pairs' & -> & Hb0 & Hp).
    apply elem_of_cons in Hin as [->|Hin].
    + rewrite Hb in Hb0. inversion Hb0; subst. apply elem_of_cons; auto.
    + apply elem_of_cons. right. eapply IH; eassumption.
Qed.

(** Every row the loop got through is in [seen] with its own label. *)
Lemma rangeRecords_seen key value records seen bindings rec b :
  rangeRecords key value records ∅ [] = Ok (seen, bindings) ->
  rec ∈ records -> rowBinding key value rec = Some b ->
  seen !! Import b = Some (Label b).
Proof.
  intros Hok Hin Hb.
  apply rangeRecords_Ok in Hok as (pairs & Hp & _ & Hall & _).
  apply Hall. eapply rowBindings_elem; eassumption.
Qed.

(** When every row has a pair, the only error of the loop is the one of
    line 122, for a key that comes with two labels. *)
Lemma rangeRecords_Err_conflict key value records :
  forall pairs seen bindings e,
    rowBindings key value records = Some pairs ->
    rangeRecords key value records seen bindings = Err e ->
    exists k l1 l2,
      e = Errorf (multipleValues k l1 l2) /\ l1 <> l2 /\
      mkBinding k l2 ∈ pairs /\
      (seen !! k = Some l1 \/ mkBinding k l1 ∈ pairs).
Proof.
  induction records as [|rec records IH]; intros pairs seen bindings e Hp Herr.
  - discriminate.
  - apply rowBindings_Some_inv in Hp as (b & pairs' & -> & Hb & Hp).
    rewrite (rangeRecords_cons_pair _ _ _ _ _ _ _ Hb) in Herr.
    assert (Hb_in : mkBinding (Import b) (Label b) ∈ b :: pairs')
      by (destruct b; apply elem_of_cons; auto).
    destruct (seen !! Import b) as [seenLabel|] eqn:Hseen.
    + destruct (label.Equal seenLabel (Label b)) eqn:Heq; simpl in Herr.
      * destruct (IH _ _ _ _ Hp Herr) as (k & l1 & l2 & -> & Hne & H2 & H1).
        exists k, l1, l2. split; [reflexivity|]. split; [exact Hne|].
        split; [apply elem_of_cons; auto|].
        destruct H1; [auto|right; apply elem_of_cons; auto].
      * inversion Herr; subst. apply Equal_false in Heq.
        exists (Import b), seenLabel, (Label b). auto.
    + destruct (IH _ _ _ _ Hp Herr) as (k & l1 & l2 & -> & Hne & H2 & H1).
      exists k, l1, l2. split; [reflexivity|]. split; [exact Hne|].
      split; [apply elem_of_cons; auto|].
      destruct H1 as [H1|H1]; [|right; apply elem_of_cons; auto].
      destruct (decide (Import b = k)) as [<-|Hk].
      * rewrite lookup_insert_eq in H1. inversion H1; subst. right. exact Hb_in.
      * rewrite lookup_insert_ne in H1 by assumption. auto.
Qed.

(** The loop stops at the first row that fails: the rows before it got
    through, and the error is the one of that row. *)
Lemma rangeRecords_Err_first key value records :
  forall seen bindings e,
    rangeRecords key value records seen bindings = Err e ->
    exists pre row post st,
      records = pre ++ row :: post /\
      rangeRecords key value pre seen bindings = Ok st /\
      rangeRecords key value [row] (fst st) (snd st) = Err e.
Proof.
  induction records as [|rec records IH]; intros seen bindings e He; [discriminate|].
  change (rec :: records) with ([rec] ++ records) in He.
  rewrite rangeRecords_app in He.
  destruct (rangeRecords key value [rec] seen bindings) as [st1|e1|p1] eqn:E1;
    cbn [obind] in He; [| |discriminate].
  - destruct (IH _ _ _ He) as (pre & row & post & st & -> & Hpre & Hrow).
    exists (rec :: pre), row, post, st. split; [reflexivity|]. split; [|exact Hrow].
    change (rec :: pre) with ([rec] ++ pre).
    rewrite rangeRecords_app, E1. exact Hpre.
  - inversion He; subst e1.
    exists [], rec, records, (seen, bindings). auto.
Qed.

(** The two errors of one turn of the loop. *)
Lemma rangeRecords_row_Err key value row seen bindings e :
  rangeRecords key value [row] seen bindings = Err e ->
  (exists v, index row value = Ok v /\ Parse v = inl e) \/
  (exists b l0,
     rowBinding key value row = Some b /\ seen !! Import b = Some l0 /\
     l0 <> Label b /\ e = Errorf (multipleValues (Import b) l0 (Label b))).
Proof.
  assert (Hindex : forall i e0, index row i <> Err e0).
  { intros i e0. unfold index. destruct (i <? 0); [discriminate|].
    destruct (row !! Z.to_nat i); discriminate. }
  unfold rowBinding. simpl.
  destruct (index row key) as [imp|e0|p] eqn:Ek;
    [|destruct (Hindex _ _ Ek)|discriminate].
  destruct (index row value) as [v|e0|p] eqn:Ev;
    [|destruct (Hindex _ _ Ev)|discriminate].
  simpl. unfold label_Parse.
  destruct (Parse v) as [e0|lbl] eqn:Ep; simpl.
  - intros Hx; inversion Hx; subst. left. eauto.
  - destruct (seen !! imp) as [l0|] eqn:Es; [|discriminate].
    destruct (label.Equal l0 lbl) eqn:Eq; simpl; [discriminate|].
    intros Hx; inversion Hx; subst. right.
    exists (mkBinding imp lbl), l0. simpl.
    apply Equal_false in Eq. repeat split; auto.
Qed.

(** C2, as amended.  An input with the same import key on two rows and
    two different parsed labels makes the run fail: [run] returns an
    error, and the file system is left as it was after the input was read
    and closed, so no bindings are produced and nothing is written.  The
    error is the one of the first row at which the loop stops, which is
    the second of the two rows or a row before it: the error of
    [label.Parse] on the value of that row, or the error of line 122 for
    the key of that row, the label seen for it and its own label.  When
    the rows before the second of the two got through the loop, the error
    is the one of line 122 for these two rows, whose message names the key
    and both labels.  When the value of every row is a label, the error is
    the one of line 122 for a key of the input and two different labels it
    comes with. *)
Theorem conflicting_labels_fail fl w content pre rec post earlier k l l' :
  requiredFlags fl ->
  files w !! protoCsvPath fl = Some content ->
  ReadAll protoCsvReader content = inr (pre ++ rec :: post) ->
  earlier ∈ pre ->
  rowBinding (keyColumn fl) (valueColumn fl) earlier = Some (mkBinding k l) ->
  rowBinding (keyColumn fl) (valueColumn fl) rec = Some (mkBinding k l') ->
  l <> l' ->
  (exists e, run fl w = (Err e, afterReading (protoCsvPath fl) w)) /\
  ((exists st, rangeRecords (keyColumn fl) (valueColumn fl) pre ∅ [] = Ok st) ->
   run fl w = (Err (Errorf (multipleValues k l l')),
               afterReading (protoCsvPath fl) w)) /\
  (forall pairs,
     rowBindings (keyColumn fl) (valueColumn fl) (pre ++ rec :: post) = Some pairs ->
     exists k0 l1 l2,
       mkBinding k0 l1 ∈ pairs /\ mkBinding k0 l2 ∈ pairs /\ l1 <> l2 /\
       run fl w = (Err (Errorf (multipleValues k0 l1 l2)),
                   afterReading (protoCsvPath fl) w)) /\
  (exists before row after st e,
     pre ++ rec :: post = before ++ row :: after /\
     (length before <= length pre)%nat /\
     rangeRecords (keyColumn fl) (valueColumn fl) before ∅ [] = Ok st /\
     ((exists v, index row (valueColumn fl) = Ok v /\ Parse v = inl e) \/
      (exists b l0,
         rowBinding (keyColumn fl) (valueColumn fl) row = Some b /\
         fst st !! Import b = Some l0 /\ l0 <> Label b /\
         e = Errorf (multipleValues (Import b) l0 (Label b)))) /\
     run fl w = (Err e, afterReading (protoCsvPath fl) w)).
Proof.
  intros Hfl Hf Hread Hin Hearlier Hrec Hne.
  rewrite (run_records fl w content _ Hfl Hf Hread).
  pose proof (ReadAll_four _ _ Hread) as Hfour.
  assert (Hfails : exists e,
             rangeRecords (keyColumn fl) (valueColumn fl) (pre ++ rec :: post) ∅ []
             = Err e).
  { destruct (rangeRecords _ _ _ _ _) as [[seen bs]|e|p] eqn:E.
    + exfalso. apply Hne.
      assert (H1 : seen !! k = Some l).
      { apply (rangeRecords_seen _ _ _ _ _ earlier (mkBinding k l) E);
          [|assumption]. apply elem_of_app. auto. }
      assert (H2 : seen !! k = Some l').
      { apply (rangeRecords_seen _ _ _ _ _ rec (mkBinding k l') E);
          [|assumption]. apply elem_of_app. right. apply elem_of_cons. auto. }
      congruence.
    + eauto.
    + exfalso. revert E. apply (rangeRecords_no_panic _ _ 4%nat); [exact Hfour| |].
      * apply rowBinding_range in Hrec as [Hr _].
        rewrite Forall_app, Forall_cons in Hfour.
        destruct Hfour as (_ & Hlen & _). rewrite Hlen in Hr. exact Hr.
      * apply rowBinding_range in Hrec as [_ Hr].
        rewrite Forall_app, Forall_cons in Hfour.
        destruct Hfour as (_ & Hlen & _). rewrite Hlen in Hr. exact Hr. }
  split; [|split; [|split]].
  - destruct Hfails as [e ->]. eauto.
  - intros [[seen bs] Hpre].
    rewrite rangeRecords_app, Hpre. cbn [obind fst snd].
    rewrite (rangeRecords_cons_pair _ _ _ _ _ _ _ Hrec). simpl.
    pose proof (rangeRecords_seen _ _ _ _ _ earlier (mkBinding k l) Hpre Hin Hearlier)
      as Hseen.
    simpl in Hseen. rewrite Hseen.
    assert (label.Equal l l' = false) as -> by (apply Equal_false; exact Hne).
    reflexivity.
  - intros pairs Hp. destruct Hfails as [e He]. rewrite He.
    destruct (rangeRecords_Err_conflict _ _ _ _ _ _ _ Hp He)
      as (k0 & l1 & l2 & -> & Hne' & H2 & [H1|H1]).
    + rewrite lookup_empty in H1. discriminate.
    + exists k0, l1, l2. auto.
  - destruct Hfails as [e He]. rewrite He.
    destruct (rangeRecords_Err_first _ _ _ _ _ _ He)
      as (before & row & after & st & Hsplit & Hbefore & Hrow).
    exists before, row, after, st, e.
    split; [exact Hsplit|]. split; [|split; [exact Hbefore|split; [|reflexivity]]].
    + destruct (Nat.le_gt_cases (length before) (length pre)) as [Hle|Hgt];
        [exact Hle|exfalso].
      apply app_eq_inv in Hsplit as [(mid & Hp & _)|(mid & Hb & Ha)].
      * subst pre. rewrite length_app in Hgt. lia.
      * destruct mid as [|m mid].
        { rewrite app_nil_r in Hb. subst before. lia. }
        simpl in Ha. inversion Ha; subst m post. subst before.
        destruct st as [seen bs]. apply Hne.
        assert (H1 : seen !! k = Some l).
        { apply (rangeRecords_seen _ _ _ _ _ earlier (mkBinding k l) Hbefore);
            [|assumption]. apply elem_of_app. auto. }
        assert (H2 : seen !! k = Some l').
        { apply (rangeRecords_seen _ _ _ _ _ rec (mkBinding k l') Hbefore);
            [|assumption]. apply elem_of_app. right. apply elem_of_cons. auto. }
        congruence.
    + apply (rangeRecords_row_Err _ _ _ _ _ _ Hrow).
Qed.

Lemma missingFlag_None fl : missingFlag fl = None <-> requiredFlags fl.
Proof.
  unfold missingFlag, requiredFlags, requiredFlagValues. simpl.
  repeat case_bool_decide; simpl; split; intros Hx;
    try discriminate; try (repeat split; assumption);
    try (destruct Hx as (?&?&?&?); congruence).
Qed.

Lemma run_missing_flag fl w name :
  missingFlag fl = Some name -> run fl w = (Err (notSet name), w).
Proof.
  unfold missingFlag, requiredFlagValues, run, notSet. simpl.
  repeat case_bool_decide; simpl; intros Hx; inversion Hx; subst; reflexivity.
Qed.

Lemma untouched_refl w : untouched w w.
Proof.
  split; [reflexivity|]. exists []. rewrite app_nil_r. split; [reflexivity|constructor].
Qed.

Lemma untouched_open p w : untouched w (log (EvOpen p) w).
Proof.
  split; [reflexivity|]. exists [EvOpen p]. split; [reflexivity|].
  repeat constructor.
Qed.

Lemma untouched_afterReading p w : untouched w (afterReading p w).
Proof.
  split; [reflexivity|]. exists [EvOpen p; EvRead p; EvClose p]. split.
  - unfold afterReading, log. simpl. rewrite <- !app_assoc. reflexivity.
  - repeat constructor.
Qed.

Lemma WriteFile_not_untouched path text w r w' :
  ioutil_WriteFile path text w = (r, w') -> ~ untouched w w'.
Proof.
  unfold ioutil_WriteFile. intros H [_ (evs & Htr & Hall)].
  assert (Ht : trace w' = trace w ++ [EvWriteFile path text])
    by (destruct (bool_decide _); inversion H; subst; reflexivity).
  rewrite Ht in Htr. apply app_inv_head in Htr. subst evs.
  inversion Hall; subst. discriminate.
Qed.

(** C3.  When a stage before the writer fails (the flags, opening or
    reading the input, label parsing or a conflict in the loop, rendering),
    [run] returns the error of the first stage that fails, no file has
    changed and no write was attempted.  Conversely, a run that changed a
    file or attempted a write got through every stage before the writer,
    and what it handed to the writer is the rendered text. *)
Theorem fail_fast_no_partial_output fl w :
  (forall e, firstFailure fl w e ->
     exists w', run fl w = (Err e, w') /\ untouched w w') /\
  (forall res w', run fl w = (res, w') -> ~ untouched w w' ->
     exists text,
       allStagesPassed fl w text /\
       (res, w') = ioutil_WriteFile (knownImportsPath fl) text
                     (afterReading (protoCsvPath fl) w)).
Proof.
  split.
  - intros e Hfail. destruct Hfail as [name Hm|Hm Hf|content e Hm Hf Hr
      |content records e Hm Hf Hr Hl|content records built e Hm Hf Hr Hl Hx].
    + exists w. split; [apply run_missing_flag, Hm|apply untouched_refl].
    + apply missingFlag_None in Hm. eexists. split;
        [apply run_open_error; assumption|apply untouched_open].
    + apply missingFlag_None in Hm. eexists. split;
        [eapply run_csv_error; eassumption|apply untouched_afterReading].
    + apply missingFlag_None in Hm. eexists. split;
        [|apply untouched_afterReading].
      rewrite (run_records fl w content records) by assumption.
      rewrite Hl. reflexivity.
    + apply missingFlag_None in Hm. eexists. split;
        [|apply untouched_afterReading].
      rewrite (run_records fl w content records) by assumption.
      rewrite Hl. unfold knownImportsTpl_Execute in Hx.
      destruct (templateError _); [|discriminate].
      inversion Hx; subst. reflexivity.
  - intros res w' Hrun Hch.
    destruct (missingFlag fl) as [name|] eqn:Hm.
    { rewrite (run_missing_flag _ _ _ Hm) in Hrun. inversion Hrun; subst.
      exfalso. apply Hch, untouched_refl. }
    apply missingFlag_None in Hm.
    destruct (files w !! protoCsvPath fl) as [content|] eqn:Hf.
    2:{ rewrite run_open_error in Hrun by assumption. inversion Hrun; subst.
        exfalso. apply Hch, untouched_open. }
    destruct (ReadAll protoCsvReader content) as [e|records] eqn:Hr.
    { rewrite (run_csv_error fl w content e) in Hrun by assumption.
      inversion Hrun; subst. exfalso. apply Hch, untouched_afterReading. }
    rewrite (run_records fl w content records) in Hrun by assumption.
    destruct (rangeRecords _ _ _ _ _) as [built|e|p] eqn:Hl.
    + destruct (templateError (dataOf fl (snd built))) as [err|] eqn:Hx.
      { inversion Hrun; subst. exfalso. apply Hch, untouched_afterReading. }
      exists (render (dataOf fl (snd built))). split; [|congruence].
      split; [assumption|]. exists content, records, built.
      unfold knownImportsTpl_Execute. rewrite Hx. auto.
    + inversion Hrun; subst. exfalso. apply Hch, untouched_afterReading.
    + inversion Hrun; subst. exfalso. apply Hch, untouched_afterReading.
Qed.

(** X1.  In an input without quotes, a line that is neither a comment nor
    empty and that does not have 4 comma-separated fields makes the reader
    fail with the wrong-number-of-fields error. *)
Lemma plain_line_with_wrong_count content l :
  noQuote content = true ->
  l ∈ lines content ->
  isDataLine protoCsvReader l = true ->
  length (commaFields EmptyString l) <> 4%nat ->
  ReadAll protoCsvReader content = inl ErrFieldCount.
Proof.
  intros Hq Hl Hd Hlen. unfold ReadAll.
  apply (ReadAllLines_wrong_count protoCsvReader) with (n := S (length (lines content)));
    [reflexivity|lia|].
  fold (rows protoCsvReader content). rewrite rows_plain by assumption.
  apply Exists_exists. exists (commaFields EmptyString l). split.
  - apply list_elem_of_fmap. exists l. split; [reflexivity|].
    apply list_elem_of_filter. auto.
  - simpl. lia.
Qed.

(** C4.  An input with a row whose number of fields is not 4 makes
    reading the table fail with the wrong-number-of-fields error of the csv
    reader, and [run] returns that error once the input is closed, whatever
    the key and value columns are.  The rows are those the reader delimits
    (comment lines and empty lines are not rows). *)
Theorem wrong_field_count_aborts fl w content row :
  requiredFlags fl ->
  files w !! protoCsvPath fl = Some content ->
  row ∈ rows protoCsvReader content ->
  length row <> 4%nat ->
  ReadAll protoCsvReader content = inl ErrFieldCount /\
  forall key value,
    run (mkFlags (protoCsvPath fl) (knownImportsPath fl) (package_ fl) (var_ fl)
                 key value) w
    = (Err (CsvError ErrFieldCount), afterReading (protoCsvPath fl) w).
Proof.
  intros Hfl Hf Hrow Hlen.
  assert (Hread : ReadAll protoCsvReader content = inl ErrFieldCount).
  { unfold ReadAll.
    apply (ReadAllLines_wrong_count protoCsvReader) with (n := S (length (lines content)));
      [reflexivity|lia|].
    apply Exists_exists. exists row. split; [exact Hrow|]. simpl. lia. }
  split; [exact Hread|]. intros key value.
  apply (run_csv_error (mkFlags _ _ _ _ key value) w content ErrFieldCount);
    [exact Hfl|exact Hf|exact Hread].
Qed.

Lemma splitLines_last s :
  noLF s = true -> s <> EmptyString -> splitLines s = [s].
Proof.
  induction s as [|c t IH]; intros Hn Hne; [congruence|].
  simpl in Hn. apply andb_true_iff in Hn as [Hc Ht].
  apply negb_true_iff in Hc. simpl. rewrite Hc.
  destruct t as [|c' t']; [reflexivity|].
  rewrite IH by (assumption || discriminate). reflexivity.
Qed.

Lemma normLine_HASH body : exists l, normLine (String HASH body) = String HASH l.
Proof.
  destruct (normLine_cons HASH body) as [E|[E|E]].
  - eauto.
  - simpl in E. discriminate.
  - simpl in E. exists (normLine body). reflexivity.
Qed.

Lemma ReadAll_last_comment r pre body :
  Comment r = HASH ->
  endsLine pre = true -> noQuote pre = true -> noLF body = true ->
  ReadAll r (pre +:+ String HASH body) = ReadAll r pre.
Proof.
  intros Hr He Hq Hn. unfold ReadAll.
  rewrite (lines_app pre (String HASH body)) by assumption.
  unfold lines at 2.
  rewrite (splitLines_last (String HASH body)) by (simpl; assumption || discriminate).
  rewrite <- (app_nil_r (lines pre)) at 2.
  apply ReadAllLines_comment; [apply noQuote_lines, Hq|].
  simpl map. destruct (normLine_HASH body) as [l ->].
  unfold isComment. rewrite Hr. reflexivity.
Qed.

(** ** Records that end before the lines that follow *)

Lemma parseRecord_nil rest p fields field :
  parseRecord rest p fields field EmptyString =
  match p with
  | Quoted =>
      match rest with
      | [] => Bad ErrQuote
      | l :: rest' => parseRecord rest' Quoted fields field l
      end
  | _ => Next (fields ++ [field]) rest
  end.
Proof. destruct rest; reflexivity. Qed.

Lemma parseRecord_cons rest p fields field c l :
  parseRecord rest p fields field (String c l) =
  match p with
  | Bare atStart =>
      if Ascii.eqb c COMMA
      then parseRecord rest (Bare true) (fields ++ [field]) EmptyString l
      else if Ascii.eqb c LF && bool_decide (l = EmptyString)
           then Next (fields ++ [field]) rest
      else if Ascii.eqb c DQUOTE
           then (if atStart then parseRecord rest Quoted fields EmptyString l
                 else Bad ErrBareQuote)
      else parseRecord rest (Bare false) fields (field +:+ String c EmptyString) l
  | Quoted =>
      if Ascii.eqb c DQUOTE then parseRecord rest QuoteSeen fields field l
      else parseRecord rest Quoted fields (field +:+ String c EmptyString) l
  | QuoteSeen =>
      if Ascii.eqb c DQUOTE
      then parseRecord rest Quoted fields (field +:+ String DQUOTE EmptyString) l
      else if Ascii.eqb c COMMA
           then parseRecord rest (Bare true) (fields ++ [field]) EmptyString l
      else if Ascii.eqb c LF && bool_decide (l = EmptyString)
           then Next (fields ++ [field]) rest
      else Bad ErrQuote
  end.
Proof. destruct rest; reflexivity. Qed.

(** A record that is read to its end is read the same way when more lines
    follow: they are left over. *)
Lemma parseRecord_app rest :
  forall line p fields field f rest',
    parseRecord rest p fields field line = Next f rest' ->
    forall tail, parseRecord (rest ++ tail) p fields field line = Next f (rest' ++ tail).
Proof.
  induction rest as [|l0 rest IH].
  - induction line as [|c l IHl]; intros p fields field f rest' H tail; revert H.
    + rewrite !parseRecord_nil. destruct p; try discriminate;
        intros Hx; inversion Hx; subst; reflexivity.
    + rewrite !parseRecord_cons.
      destruct p; repeat case_match; try discriminate; eauto;
        intros Hx; inversion Hx; subst; reflexivity.
  - induction line as [|c l IHl]; intros p fields field f rest' H tail; revert H.
    + rewrite !parseRecord_nil. destruct p; simpl; eauto;
        intros Hx; inversion Hx; subst; reflexivity.
    + rewrite !parseRecord_cons.
      destruct p; repeat case_match; try discriminate; eauto;
        intros Hx; inversion Hx; subst; reflexivity.
Qed.

Lemma parseRecord_not_Eof rest :
  forall line p fields field, parseRecord rest p fields field line <> Eof.
Proof.
  induction rest as [|l0 rest IH].
  - induction line as [|c l IHl]; intros p fields field.
    + rewrite parseRecord_nil. destruct p; discriminate.
    + rewrite parseRecord_cons. destruct p; repeat case_match; eauto; discriminate.
  - induction line as [|c l IHl]; intros p fields field.
    + rewrite parseRecord_nil. destruct p; eauto; discriminate.
    + rewrite parseRecord_cons. destruct p; repeat case_match; eauto; discriminate.
Qed.

Lemma readFields_app_Next r before f rest tail :
  readFields r before = Next f rest ->
  readFields r (before ++ tail) = Next f (rest ++ tail).
Proof.
  induction before as [|l before IH]; simpl; [discriminate|].
  destruct (isComment r l); [exact IH|].
  destruct (isEmptyLine l); [exact IH|].
  intros H. apply parseRecord_app, H.
Qed.

Lemma readFields_app_Eof r before tail :
  readFields r before = Eof ->
  readFields r (before ++ tail) = readFields r tail.
Proof.
  induction before as [|l before IH]; simpl; [reflexivity|].
  destruct (isComment r l); [exact IH|].
  destruct (isEmptyLine l); [exact IH|].
  intros H. apply parseRecord_not_Eof in H. contradiction.
Qed.

(** Lines the reader accepts are whole records: what it returns on them
    followed by more lines is what it returns on both, one after the
    other. *)
Lemma ReadAllLines_app r :
  FieldsPerRecord r <> 0 ->
  forall n before records after,
    (length before < n)%nat ->
    ReadAllLines r before = inr records ->
    ReadAllLines r (before ++ after)
    = match ReadAllLines r after with
      | inl e => inl e
      | inr more => inr (records ++ more)
      end.
Proof.
  intros Hr. induction n as [|n IH]; intros before records after Hn Hok; [lia|].
  rewrite ReadAllLines_unfold in Hok.
  rewrite (ReadAllLines_unfold r (before ++ after)).
  unfold readRecord in *.
  destruct (readFields r before) as [|f rest|e] eqn:E.
  - inversion Hok; subst. rewrite (readFields_app_Eof _ _ _ E).
    rewrite (ReadAllLines_unfold r after). unfold readRecord.
    destruct (readFields r after) as [|f rest|e]; try reflexivity.
    destruct (_ && _); [reflexivity|].
    destruct (ReadAllLines _ rest); reflexivity.
  - rewrite (readFields_app_Next _ _ _ _ after E).
    destruct (_ && _); [discriminate|].
    rewrite afterRecord_fixed in * by assumption.
    destruct (ReadAllLines r rest) as [e|records'] eqn:E'; [discriminate|].
    inversion Hok; subst.
    apply readFields_rest in E.
    rewrite (IH rest records' after); [|lia|exact E'].
    destruct (ReadAllLines r after); reflexivity.
  - discriminate.
Qed.

(** A comment line that follows lines the reader accepts is skipped. *)
Lemma ReadAllLines_comment_accepted r before records c after :
  FieldsPerRecord r <> 0 ->
  ReadAllLines r before = inr records ->
  isComment r c = true ->
  ReadAllLines r (before ++ c :: after) = ReadAllLines r (before ++ after).
Proof.
  intros Hr Hok Hc.
  rewrite (ReadAllLines_app r Hr (S (length before)) before records (c :: after));
    [|lia|exact Hok].
  rewrite (ReadAllLines_app r Hr (S (length before)) before records after);
    [|lia|exact Hok].
  rewrite ReadAllLines_skip by (rewrite Hc; reflexivity). reflexivity.
Qed.

Lemma lines_comment_line body post :
  noLF body = true ->
  lines (String HASH body +:+ String LF post)
  = normLine (String HASH body +:+ String LF EmptyString) :: lines post.
Proof.
  intros Hn. unfold lines.
  rewrite (splitLines_line (String HASH body) post) by exact Hn. reflexivity.
Qed.

Lemma isComment_normLine_HASH r body :
  Comment r = HASH -> isComment r (normLine (String HASH body)) = true.
Proof.
  intros Hr. destruct (normLine_HASH body) as [l ->].
  unfold isComment. rewrite Hr. reflexivity.
Qed.

(** Cutting out a comment line that follows input the reader accepts does
    not change what [ReadAll] returns; the input may hold quoted fields. *)
Lemma ReadAll_comment_accepted r pre records body post :
  Comment r = HASH -> FieldsPerRecord r <> 0 ->
  endsLine pre = true -> ReadAll r pre = inr records -> noLF body = true ->
  ReadAll r (pre +:+ String HASH body +:+ String LF post) = ReadAll r (pre +:+ post) /\
  ReadAll r (pre +:+ String HASH body) = ReadAll r pre.
Proof.
  intros Hc Hr He Hok Hn. unfold ReadAll in *. split.
  - rewrite (lines_app pre post) by assumption.
    rewrite (lines_app pre (String HASH body +:+ String LF post)) by assumption.
    rewrite lines_comment_line by exact Hn.
    eapply ReadAllLines_comment_accepted; [exact Hr|exact Hok|].
    apply (isComment_normLine_HASH r (body +:+ String LF EmptyString) Hc).
  - rewrite (lines_app pre (String HASH body)) by assumption.
    unfold lines at 2.
    rewrite (splitLines_last (String HASH body)) by (simpl; assumption || discriminate).
    rewrite <- (app_nil_r (lines pre)) at 2. simpl map.
    eapply ReadAllLines_comment_accepted; [exact Hr|exact Hok|].
    apply isComment_normLine_HASH, Hc.
Qed.

(** ** Lines that start with a blank *)

Lemma append_empty_r s : s +:+ EmptyString = s.
Proof.
  induction s as [|c s IH]; [reflexivity|].
  change (String c (s +:+ EmptyString) = String c s). rewrite IH. reflexivity.
Qed.

Lemma append_char s c t : (s +:+ String c EmptyString) +:+ t = s +:+ String c t.
Proof.
  induction s as [|a s IH]; [reflexivity|].
  change (String a ((s +:+ String c EmptyString) +:+ t) = String a (s +:+ String c t)).
  rewrite IH. reflexivity.
Qed.

(** The bytes read into a field stay in it: the record that comes out has
    the fields completed so far, then a field that starts with the bytes
    of the field being read. *)
Lemma parseRecord_keeps rest :
  forall line p fields field f rest',
    (p = Bare true -> field = EmptyString) ->
    parseRecord rest p fields field line = Next f rest' ->
    exists suffix more, f = fields ++ (field +:+ suffix) :: more.
Proof.
  assert (Hdone : forall (fields : list string) (field : string),
            exists suffix more, fields ++ [field] = fields ++ (field +:+ suffix) :: more).
  { intros fields field. exists EmptyString, []. rewrite append_empty_r. reflexivity. }
  assert (Hnext : forall (f fields : list string) (field : string),
            (exists suffix more,
               f = (fields ++ [field]) ++ (EmptyString +:+ suffix) :: more) ->
            exists suffix more, f = fields ++ (field +:+ suffix) :: more).
  { intros f fields field (s & more & ->). exists EmptyString, (s :: more).
    rewrite append_empty_r, <- app_assoc. reflexivity. }
  assert (Hgrow : forall (f fields : list string) (field : string) c,
            (exists suffix more,
               f = fields ++ ((field +:+ String c EmptyString) +:+ suffix) :: more) ->
            exists suffix more, f = fields ++ (field +:+ suffix) :: more).
  { intros f fields field c (s & more & ->). exists (String c s), more.
    rewrite append_char. reflexivity. }
  induction rest as [|l0 rest IH].
  - induction line as [|c l IHl]; intros p fields field f rest' Hp; revert Hp.
    + rewrite parseRecord_nil. destruct p; try discriminate;
        intros _ Hx; inversion Hx; subst; apply Hdone.
    + rewrite parseRecord_cons.
      destruct p as [atStart| |]; intros Hp; repeat case_match; try discriminate;
        intros Hx;
        try (inversion Hx; subst; apply Hdone);
        try (apply Hnext; eapply IHl; [|exact Hx]; discriminate || reflexivity);
        try (eapply Hgrow; eapply IHl; [|exact Hx]; discriminate);
        try (eapply IHl; [|exact Hx]; discriminate).
      rewrite (Hp eq_refl). eapply IHl; [|exact Hx]. discriminate.
  - induction line as [|c l IHl]; intros p fields field f rest' Hp; revert Hp.
    + rewrite parseRecord_nil. destruct p;
        intros _ Hx; try (inversion Hx; subst; apply Hdone).
      eapply IH; [|exact Hx]. discriminate.
    + rewrite parseRecord_cons.
      destruct p as [atStart| |]; intros Hp; repeat case_match; try discriminate;
        intros Hx;
        try (inversion Hx; subst; apply Hdone);
        try (apply Hnext; eapply IHl; [|exact Hx]; discriminate || reflexivity);
        try (eapply Hgrow; eapply IHl; [|exact Hx]; discriminate);
        try (eapply IHl; [|exact Hx]; discriminate).
      rewrite (Hp eq_refl). eapply IHl; [|exact Hx]. discriminate.
Qed.

(** A line whose first character that is not a blank is [#], and which
    does not start with [#], starts with a blank. *)
Lemma blank_before_hash l :
  firstNonBlankIsHash l = true -> isComment protoCsvReader l = false ->
  exists c t, l = String c t /\ (c = " "%char \/ c = TAB) /\ t <> EmptyString.
Proof.
  destruct l as [|c t]; simpl; [discriminate|].
  unfold isComment. simpl.
  destruct (Ascii.eqb c " " || Ascii.eqb c TAB) eqn:Eb.
  - intros Ht _. exists c, t. split; [reflexivity|]. split.
    + apply orb_true_iff in Eb as [E|E]; apply Ascii.eqb_eq in E; auto.
    + intros ->. discriminate.
  - intros E1 E2. unfold HASH in *. congruence.
Qed.

(** Such a line is not skipped: it starts a record, whose first field
    begins with the blank. *)
Lemma readFields_blank r c t ls :
  c = " "%char \/ c = TAB -> t <> EmptyString -> Comment r = HASH ->
  match readFields r (String c t :: ls) with
  | Eof => False
  | Bad _ => True
  | Next fields _ => exists suffix more, fields = String c suffix :: more
  end.
Proof.
  intros Hc Ht Hr.
  assert (E : readFields r (String c t :: ls)
              = parseRecord ls (Bare false) [] (String c EmptyString) t).
  { simpl readFields. unfold isComment. rewrite Hr.
    destruct t as [|c' t']; [congruence|].
    destruct Hc as [-> | ->]; destruct ls; reflexivity. }
  rewrite E.
  destruct (parseRecord ls (Bare false) [] (String c EmptyString) t)
    as [|f rest|e] eqn:Ep.
  - apply parseRecord_not_Eof in Ep. exact Ep.
  - apply parseRecord_keeps in Ep as (s & more & ->); [|discriminate].
    exists s, more. reflexivity.
  - exact I.
Qed.

Lemma isDataLine_blank l :
  firstNonBlankIsHash l = true -> isComment protoCsvReader l = false ->
  isDataLine protoCsvReader l = true.
Proof.
  intros Hf Hc. destruct (blank_before_hash l Hf Hc) as (c & t & -> & Hb & Ht).
  unfold isDataLine. rewrite Hc. simpl.
  destruct t as [|c' t']; [congruence|reflexivity].
Qed.

(** C5, as amended.  A line whose first character is [#] is a comment:
    when it is the next line as a record is about to be read, the reader
    skips it.  So a line that starts with [#] can be cut out of the input
    without changing what the reader returns, whether it stands between
    data rows or at the end of the input, and whatever the number of its
    fields; this holds when the input before the line has no quotes, and
    when it is input the reader accepts, quoted fields included.  Blanks
    before the [#] are not allowed for.  A line whose first character that
    is not a blank is [#], with at least one blank before it, is not
    skipped: it starts a record whose first field begins with the blank,
    and the record is returned only if it has 4 fields.  Without quotes in
    such a line, the record is the line cut at its commas; in an input
    without quotes, either the line does not have 4 fields and reading the
    input fails with the wrong-number-of-fields error, or the line is one
    of the records. *)
Theorem comment_lines_are_skipped :
  (forall body ls,
     readRecord protoCsvReader (String HASH body :: ls)
     = readRecord protoCsvReader ls) /\
  (forall pre body post,
     endsLine pre = true -> noQuote pre = true -> noLF body = true ->
     ReadAll protoCsvReader (pre +:+ String HASH body +:+ String LF post)
     = ReadAll protoCsvReader (pre +:+ post) /\
     ReadAll protoCsvReader (pre +:+ String HASH body)
     = ReadAll protoCsvReader pre) /\
  (forall pre records body post,
     endsLine pre = true -> ReadAll protoCsvReader pre = inr records ->
     noLF body = true ->
     ReadAll protoCsvReader (pre +:+ String HASH body +:+ String LF post)
     = ReadAll protoCsvReader (pre +:+ post) /\
     ReadAll protoCsvReader (pre +:+ String HASH body)
     = ReadAll protoCsvReader pre) /\
  (forall l ls,
     firstNonBlankIsHash l = true -> isComment protoCsvReader l = false ->
     match readRecord protoCsvReader (l :: ls) with
     | Eof => False
     | Bad _ => True
     | Next fields _ =>
         length fields = 4%nat /\
         exists c suffix more,
           (c = " "%char \/ c = TAB) /\ fields = String c suffix :: more
     end) /\
  (forall l ls,
     firstNonBlankIsHash l = true -> isComment protoCsvReader l = false ->
     noQuote l = true ->
     readRecord protoCsvReader (l :: ls)
     = if bool_decide (length (commaFields EmptyString l) = 4%nat)
       then Next (commaFields EmptyString l) ls
       else Bad ErrFieldCount) /\
  (forall content l,
     noQuote content = true -> l ∈ lines content ->
     firstNonBlankIsHash l = true -> isComment protoCsvReader l = false ->
     (length (commaFields EmptyString l) <> 4%nat ->
      ReadAll protoCsvReader content = inl ErrFieldCount) /\
     (forall records,
        ReadAll protoCsvReader content = inr records ->
        commaFields EmptyString l ∈ records)).
Proof.
  split; [|split; [|split; [|split; [|split]]]].
  - intros body ls. reflexivity.
  - intros pre body post He Hq Hn. split.
    + apply ReadAll_comment; auto.
    + apply ReadAll_last_comment; auto.
  - intros pre records body post He Hok Hn.
    apply (ReadAll_comment_accepted protoCsvReader pre records body post);
      [reflexivity|discriminate|assumption..].
  - intros l ls Hf Hc.
    destruct (blank_before_hash l Hf Hc) as (c & t & -> & Hb & Ht).
    pose proof (readFields_blank protoCsvReader c t ls Hb Ht eq_refl) as Hread.
    unfold readRecord.
    destruct (readFields protoCsvReader (String c t :: ls)) as [|f rest|e];
      [exact Hread| |exact I].
    destruct Hread as (suffix & more & ->).
    destruct (Z.eqb_spec (Z.of_nat (length (String c suffix :: more)))
                (FieldsPerRecord protoCsvReader)) as [Heq|Hne]; simpl; [|exact I].
    split; [simpl in Heq; lia|]. exists c, suffix, more. auto.
  - intros l ls Hf Hc Hq.
    pose proof (isDataLine_blank l Hf Hc) as Hd.
    unfold isDataLine in Hd. apply andb_true_iff in Hd as [_ He].
    apply negb_true_iff in He.
    unfold readRecord. simpl readFields. rewrite Hc, He.
    rewrite parseRecord_plain by exact Hq. simpl app.
    case_bool_decide as Hlen.
    + rewrite Hlen. reflexivity.
    + destruct (Z.eqb_spec (Z.of_nat (length (commaFields EmptyString l)))
                  (FieldsPerRecord protoCsvReader)) as [Heq|Hne]; [|reflexivity].
      simpl in Heq. lia.
  - intros content l Hq Hl Hf Hc.
    pose proof (isDataLine_blank l Hf Hc) as Hd.
    assert (Hrow : commaFields EmptyString l ∈ rows protoCsvReader content).
    { rewrite rows_plain by assumption.
      apply list_elem_of_fmap. exists l. split; [reflexivity|].
      apply list_elem_of_filter. auto. }
    split.
    + intros Hlen. unfold ReadAll.
      apply (ReadAllLines_wrong_count protoCsvReader)
        with (n := S (length (lines content))); [reflexivity|lia|].
      apply Exists_exists. exists (commaFields EmptyString l).
      split; [exact Hrow|]. simpl. lia.
    + intros records Hok. unfold ReadAll in Hok.
      apply (ReadAllLines_records protoCsvReader) with (n := S (length (lines content)))
        in Hok as [_ ->]; [exact Hrow|reflexivity|lia].
Qed.

(** What [run] returns depends on the file system only through the
    contents of the input and through whether the output can be written. *)
Lemma run_result_determined fl w1 w2 :
  files w1 !! protoCsvPath fl = files w2 !! protoCsvPath fl ->
  bool_decide (knownImportsPath fl ∈ readonly w1)
  = bool_decide (knownImportsPath fl ∈ readonly w2) ->
  fst (run fl w1) = fst (run fl w2).
Proof.
  intros Hin Hro.
  destruct (missingFlag fl) as [name|] eqn:Hm.
  { rewrite !(run_missing_flag _ _ _ Hm). reflexivity. }
  apply missingFlag_None in Hm.
  destruct (files w2 !! protoCsvPath fl) as [content|] eqn:Hf.
  2:{ rewrite !run_open_error by assumption. reflexivity. }
  destruct (ReadAll protoCsvReader content) as [e|records] eqn:Hr.
  { rewrite !(run_csv_error fl _ content e) by assumption. reflexivity. }
  rewrite !(run_records fl _ content records) by assumption.
  destruct (rangeRecords _ _ _ _ _) as [built|e|p]; try reflexivity.
  destruct (templateError _); [reflexivity|].
  unfold ioutil_WriteFile. simpl. rewrite Hro.
  destruct (bool_decide (knownImportsPath fl ∈ readonly w2)); reflexivity.
Qed.

(** A run that returns without error has written the rendered text. *)
Lemma run_Ok_output fl w w' :
  run fl w = (Ok tt, w') ->
  exists content records built,
    files w !! protoCsvPath fl = Some content /\
    ReadAll protoCsvReader content = inr records /\
    rangeRecords (keyColumn fl) (valueColumn fl) records ∅ [] = Ok built /\
    templateError (dataOf fl (snd built)) = None /\
    files w' = <[knownImportsPath fl := render (dataOf fl (snd built))]> (files w) /\
    readonly w' = readonly w /\
    knownImportsPath fl ∉ readonly w.
Proof.
  intros Hrun.
  destruct (missingFlag fl) as [name|] eqn:Hm.
  { rewrite (run_missing_flag _ _ _ Hm) in Hrun. discriminate. }
  apply missingFlag_None in Hm.
  destruct (files w !! protoCsvPath fl) as [content|] eqn:Hf.
  2:{ rewrite run_open_error in Hrun by assumption. discriminate. }
  destruct (ReadAll protoCsvReader content) as [e|records] eqn:Hr.
  { rewrite (run_csv_error fl _ content e) in Hrun by assumption. discriminate. }
  rewrite (run_records fl _ content records) in Hrun by assumption.
  destruct (rangeRecords _ _ _ _ _) as [built|e|p] eqn:Hl; try discriminate.
  destruct (templateError (dataOf fl (snd built))) as [err|] eqn:Hx; [discriminate|].
  exists content, records, built.
  unfold ioutil_WriteFile in Hrun. simpl in Hrun.
  case_bool_decide; [discriminate|].
  inversion Hrun; subst. simpl. auto 10.
Qed.

(** C6.  The output is a function of the flags and of the contents of the
    input file.  Take two file systems in which the input file has the same
    contents.  If the output file can be written in both or in neither,
    [run] returns the same result in both; and when both runs succeed, the
    output file holds the same bytes afterwards.  Running again on the
    result of a successful run (with an output path other than the input
    path) succeeds and leaves every file as it is. *)
Theorem output_is_deterministic fl w1 w2 :
  files w1 !! protoCsvPath fl = files w2 !! protoCsvPath fl ->
  (bool_decide (knownImportsPath fl ∈ readonly w1)
   = bool_decide (knownImportsPath fl ∈ readonly w2) ->
   fst (run fl w1) = fst (run fl w2)) /\
  (forall w1' w2',
     run fl w1 = (Ok tt, w1') -> run fl w2 = (Ok tt, w2') ->
     exists text,
       files w1' !! knownImportsPath fl = Some text /\
       files w2' !! knownImportsPath fl = Some text) /\
  (forall w1',
     run fl w1 = (Ok tt, w1') -> protoCsvPath fl <> knownImportsPath fl ->
     exists w1'', run fl w1' = (Ok tt, w1'') /\ files w1'' = files w1').
Proof.
  intros Hin. split; [apply run_result_determined, Hin|]. split.
  - intros w1' w2' H1 H2.
    apply run_Ok_output in H1 as (c1 & r1 & b1 & Hf1 & Hr1 & Hl1 & _ & Hw1 & _).
    apply run_Ok_output in H2 as (c2 & r2 & b2 & Hf2 & Hr2 & Hl2 & _ & Hw2 & _).
    assert (c1 = c2) by congruence. subst c2.
    assert (r1 = r2) by congruence. subst r2.
    assert (b1 = b2) by congruence. subst b2.
    exists (render (dataOf fl (snd b1))).
    rewrite Hw1, Hw2, !lookup_insert_eq. auto.
  - intros w1' H1 Hne.
    pose proof H1 as H1'.
    apply run_Ok_output in H1' as (c & r & b & Hf & Hr & Hl & Hx & Hw & Hro & Hnot).
    assert (Hfl : requiredFlags fl).
    { apply missingFlag_None. destruct (missingFlag fl) as [name|] eqn:Hm; [|reflexivity].
      rewrite (run_missing_flag _ _ _ Hm) in H1. discriminate. }
    assert (Hf' : files w1' !! protoCsvPath fl = Some c).
    { rewrite Hw, lookup_insert_ne by congruence. exact Hf. }
    rewrite (run_records fl w1' c r Hfl Hf' Hr), Hl, Hx.
    unfold ioutil_WriteFile. simpl. rewrite Hro.
    rewrite bool_decide_eq_false_2 by assumption.
    eexists. split; [reflexivity|]. simpl.
    rewrite Hw. apply insert_insert_eq.
Qed.

(** C7.  When one of the required flags [-proto_csv], [-known_imports],
    [-package], [-var] is empty, [run] returns an error that names an empty
    flag, and it does so before any operation on a file: the file system
    and the list of operations attempted are those it started with. *)
Theorem missing_flag_fails_before_io fl w :
  protoCsvPath fl = "" \/ knownImportsPath fl = "" \/
  package_ fl = "" \/ var_ fl = "" ->
  exists name,
    (name, "") ∈ requiredFlagValues fl /\
    run fl w = (Err (Errorf ("-" +:+ name +:+ " not set")), w).
Proof.
  intros H.
  destruct (missingFlag fl) as [name|] eqn:Hm.
  - exists name. split; [|apply run_missing_flag, Hm].
    unfold missingFlag in Hm.
    destruct (find _ _) as [[n v]|] eqn:Hfind; [|discriminate].
    simpl in Hm. inversion Hm; subst.
    apply find_some in Hfind as [Hin Hv]. simpl in Hv.
    apply bool_decide_eq_true in Hv. subst v.
    apply list_elem_of_In. exact Hin.
  - apply missingFlag_None in Hm. destruct Hm as (?&?&?&?).
    destruct H as [?|[?|[?|?]]]; congruence.
Qed.

(** The loop with its calls recorded returns what the loop returns, and
    records one call of [label.Parse] for each record it gets to, on the
    value column of that record. *)
Lemma rangeRecordsTraced_calls key value records : forall seen bindings w cs,
  exists values,
    rangeRecordsTraced key value records seen bindings (w, cs)
    = (rangeRecords key value records seen bindings, (w, cs ++ map CallParse values)) /\
    Forall2 (fun rec v => index rec value = Ok v)
      (take (length values) records) values /\
    (forall st, rangeRecords key value records seen bindings = Ok st ->
                length values = length records).
Proof.
  induction records as [|rec records IH]; intros seen bindings w cs.
  - exists []. simpl. rewrite app_nil_r.
    split; [reflexivity|]. split; [constructor|reflexivity].
  - simpl. unfold tbind, tlift, called.
    destruct (index rec key) as [imp|e|p]; simpl;
      try (exists []; simpl; rewrite app_nil_r;
           split; [reflexivity|]; split; [constructor|discriminate]).
    destruct (index rec value) as [v|e|p] eqn:Ev; simpl;
      try (exists []; simpl; rewrite app_nil_r;
           split; [reflexivity|]; split; [constructor|discriminate]).
    assert (Hone : Forall2 (fun rec v => index rec value = Ok v)
                     (take (length [v]) (rec :: records)) [v])
      by (simpl; rewrite take_0; repeat constructor; exact Ev).
    destruct (label_Parse v) as [lbl|e|p]; simpl;
      try (exists [v]; split; [reflexivity|]; split; [exact Hone|discriminate]).
    assert (Hmore : forall seen' bindings',
              exists values,
                rangeRecordsTraced key value records seen' bindings'
                  (w, cs ++ [CallParse v])
                = (rangeRecords key value records seen' bindings',
                   (w, cs ++ map CallParse values)) /\
                Forall2 (fun rec v => index rec value = Ok v)
                  (take (length values) (rec :: records)) values /\
                (forall st, rangeRecords key value records seen' bindings' = Ok st ->
                            length values = length (rec :: records))).
    { intros seen' bindings'.
      destruct (IH seen' bindings' w (cs ++ [CallParse v])) as (values & Heq & Hall & Hlen).
      exists (v :: values). split; [|split].
      - rewrite Heq. simpl. rewrite <- app_assoc. reflexivity.
      - simpl. constructor; [exact Ev|exact Hall].
      - intros st Hst. simpl. rewrite (Hlen st Hst). reflexivity. }
    destruct (seen !! imp) as [seenLabel|]; [|apply Hmore].
    destruct (negb (label.Equal seenLabel lbl)); [|apply Hmore].
    exists [v]. split; [reflexivity|]. split; [exact Hone|discriminate].
Qed.

Lemma runTraced_flags_set fl :
  requiredFlags fl ->
  runTraced fl =
  (protoCsvFile <<- operate (os_Open (protoCsvPath fl)) ;;
   read <<- operate (csv_ReadAll protoCsvReader protoCsvFile) ;;
   _ <<- operate (File_Close protoCsvFile) ;;
   match read with
   | inl err => tlift (Err (CsvError err))
   | inr records =>
       built <<- rangeRecordsTraced (keyColumn fl) (valueColumn fl) records ∅ [] ;;
       knownImportsBuf <<- called (CallExecute (dataOf fl (snd built)))
                             (knownImportsTpl_Execute (dataOf fl (snd built))) ;;
       operate (ioutil_WriteFile (knownImportsPath fl) knownImportsBuf)
   end).
Proof.
  intros (H1 & H2 & H3 & H4). unfold runTraced.
  rewrite !bool_decide_eq_false_2 by assumption. reflexivity.
Qed.

(** The calls up to the end of the reading. *)
Lemma runTraced_reading fl w cs content :
  requiredFlags fl ->
  files w !! protoCsvPath fl = Some content ->
  runTraced fl (w, cs) =
  match ReadAll protoCsvReader content with
  | inl err => tlift (Err (CsvError err))
  | inr records =>
      built <<- rangeRecordsTraced (keyColumn fl) (valueColumn fl) records ∅ [] ;;
      knownImportsBuf <<- called (CallExecute (dataOf fl (snd built)))
                            (knownImportsTpl_Execute (dataOf fl (snd built))) ;;
      operate (ioutil_WriteFile (knownImportsPath fl) knownImportsBuf)
  end (afterReading (protoCsvPath fl) w, cs ++ readingCalls (protoCsvPath fl)).
Proof.
  intros Hfl Hf. rewrite runTraced_flags_set by assumption.
  unfold tbind at 1 2 3. unfold operate, os_Open, csv_ReadAll, File_Close.
  simpl. rewrite Hf. simpl. rewrite !drop_app_length. simpl.
  rewrite <- !app_assoc. reflexivity.
Qed.

(** The writer, with its call recorded. *)
Lemma operate_WriteFile path text w cs :
  operate (ioutil_WriteFile path text) (w, cs)
  = (fst (ioutil_WriteFile path text w),
     (snd (ioutil_WriteFile path text w), cs ++ [FileOp (EvWriteFile path text)])).
Proof.
  unfold operate, ioutil_WriteFile. simpl.
  destruct (bool_decide _); simpl; rewrite drop_app_length; reflexivity.
Qed.

Lemma runTraced_csv_error fl w cs content e :
  requiredFlags fl ->
  files w !! protoCsvPath fl = Some content ->
  ReadAll protoCsvReader content = inl e ->
  runTraced fl (w, cs)
  = (Err (CsvError e),
     (afterReading (protoCsvPath fl) w, cs ++ readingCalls (protoCsvPath fl))).
Proof.
  intros Hfl Hf Hr. rewrite (runTraced_reading fl w cs content Hfl Hf), Hr.
  reflexivity.
Qed.

Lemma runTraced_records fl w cs content records :
  requiredFlags fl ->
  files w !! protoCsvPath fl = Some content ->
  ReadAll protoCsvReader content = inr records ->
  exists values,
    Forall2 (fun rec v => index rec (valueColumn fl) = Ok v)
      (take (length values) records) values /\
    (forall st, rangeRecords (keyColumn fl) (valueColumn fl) records ∅ [] = Ok st ->
                length values = length records) /\
    runTraced fl (w, cs) =
    match rangeRecords (keyColumn fl) (valueColumn fl) records ∅ [] with
    | Ok built =>
        match templateError (dataOf fl (snd built)) with
        | Some err =>
            (Err err,
             (afterReading (protoCsvPath fl) w,
              cs ++ readingCalls (protoCsvPath fl) ++ map CallParse values
                 ++ [CallExecute (dataOf fl (snd built))]))
        | None =>
            (fst (ioutil_WriteFile (knownImportsPath fl) (render (dataOf fl (snd built)))
                    (afterReading (protoCsvPath fl) w)),
             (snd (ioutil_WriteFile (knownImportsPath fl) (render (dataOf fl (snd built)))
                     (afterReading (protoCsvPath fl) w)),
              cs ++ readingCalls (protoCsvPath fl) ++ map CallParse values
                 ++ [CallExecute (dataOf fl (snd built));
                     FileOp (EvWriteFile (knownImportsPath fl)
                               (render (dataOf fl (snd built))))]))
        end
    | Err e =>
        (Err e,
         (afterReading (protoCsvPath fl) w,
          cs ++ readingCalls (protoCsvPath fl) ++ map CallParse values))
    | Panic p =>
        (Panic p,
         (afterReading (protoCsvPath fl) w,
          cs ++ readingCalls (protoCsvPath fl) ++ map CallParse values))
    end.
Proof.
  intros Hfl Hf Hr. rewrite (runTraced_reading fl w cs content Hfl Hf), Hr.
  destruct (rangeRecordsTraced_calls (keyColumn fl) (valueColumn fl) records ∅ []
              (afterReading (protoCsvPath fl) w)
              (cs ++ readingCalls (protoCsvPath fl)))
    as (values & Heq & Hvalues & Hlen).
  exists values. split; [exact Hvalues|]. split; [exact Hlen|].
  unfold tbind. rewrite Heq.
  destruct (rangeRecords _ _ _ _ _) as [built|e|p];
    [|rewrite <- app_assoc; reflexivity..].
  unfold called, knownImportsTpl_Execute. cbn [fst snd].
  destruct (templateError (dataOf fl (snd built))) as [err|].
  - rewrite <- !app_assoc. reflexivity.
  - rewrite operate_WriteFile. rewrite <- !app_assoc. reflexivity.
Qed.

(** C8.  When the input file is opened, [run] opens it, reads it and
    closes it, in this order and with nothing in between, and every other
    call of the run comes after that: each call of [label.Parse] in the
    loop, the execution of the template, and the write.  None of them is
    an operation on the input, so the file is closed exactly once.  This
    holds when reading succeeds and when it fails.  When it fails, nothing
    comes later and the error of the reader is returned.  When it
    succeeds, what comes later is one call of [label.Parse] for each
    record the loop gets to, on the value column of that record, and, when
    the loop ends normally, one for every record, then the execution of
    the template, then the write if the template reports no error.  The
    calls are those of [runTraced], whose result and file system are those
    of [run]; on the trace of the file system of [run], the operations are
    those on the input followed by writes only. *)
Theorem input_closed_right_after_reading fl w cs content :
  requiredFlags fl ->
  files w !! protoCsvPath fl = Some content ->
  (fst (runTraced fl (w, cs)) = fst (run fl w) /\
   fst (snd (runTraced fl (w, cs))) = snd (run fl w)) /\
  (exists later,
     snd (snd (runTraced fl (w, cs)))
     = cs ++ [FileOp (EvOpen (protoCsvPath fl)); FileOp (EvRead (protoCsvPath fl));
              FileOp (EvClose (protoCsvPath fl))] ++ later /\
     Forall (fun c => isLaterStage c = true) later /\
     (forall e, ReadAll protoCsvReader content = inl e ->
                later = [] /\ fst (run fl w) = Err (CsvError e)) /\
     (forall records,
        ReadAll protoCsvReader content = inr records ->
        exists values rest,
          later = map CallParse values ++ rest /\
          Forall2 (fun rec v => index rec (valueColumn fl) = Ok v)
            (take (length values) records) values /\
          match rangeRecords (keyColumn fl) (valueColumn fl) records ∅ [] with
          | Ok built =>
              length values = length records /\
              rest = CallExecute (dataOf fl (snd built))
                     :: match templateError (dataOf fl (snd built)) with
                        | Some _ => []
                        | None =>
                            [FileOp (EvWriteFile (knownImportsPath fl)
                                       (render (dataOf fl (snd built))))]
                        end
          | _ => rest = []
          end)) /\
  (exists later,
     trace (snd (run fl w))
     = trace w ++ [EvOpen (protoCsvPath fl); EvRead (protoCsvPath fl);
                   EvClose (protoCsvPath fl)] ++ later /\
     Forall (fun e => isWrite e = true) later /\
     (forall e, ReadAll protoCsvReader content = inl e ->
                later = [] /\ fst (run fl w) = Err (CsvError e))).
Proof.
  intros Hfl Hf.
  assert (Htr : trace (afterReading (protoCsvPath fl) w)
                = trace w ++ [EvOpen (protoCsvPath fl); EvRead (protoCsvPath fl);
                              EvClose (protoCsvPath fl)])
    by (unfold afterReading, log; simpl; rewrite <- !app_assoc; reflexivity).
  assert (Hold : forall o : outcome unit,
            (forall e, ReadAll protoCsvReader content = inl e -> o = Err (CsvError e)) ->
            exists later,
              trace (afterReading (protoCsvPath fl) w)
              = trace w ++ [EvOpen (protoCsvPath fl); EvRead (protoCsvPath fl);
                            EvClose (protoCsvPath fl)] ++ later /\
              Forall (fun e => isWrite e = true) later /\
              (forall e, ReadAll protoCsvReader content = inl e ->
                         later = [] /\ o = Err (CsvError e))).
  { intros o Ho. exists []. rewrite app_nil_r. split; [exact Htr|].
    split; [constructor|]. intros e He. auto. }
  fold (readingCalls (protoCsvPath fl)).
  destruct (ReadAll protoCsvReader content) as [e|records] eqn:Hr.
  - rewrite (runTraced_csv_error fl w cs content e) by assumption.
    rewrite (run_csv_error fl w content e) by assumption.
    cbn [fst snd].
    split; [split; reflexivity|]. split.
    + exists []. rewrite app_nil_r. split; [reflexivity|]. split; [constructor|].
      split; [|discriminate]. intros e' He'. inversion He'; subst. auto.
    + apply Hold. intros e' He'. inversion He'; subst. reflexivity.
  - destruct (runTraced_records fl w cs content records Hfl Hf Hr)
      as (values & Hvalues & Hlen & Heq).
    rewrite Heq. clear Heq.
    rewrite (run_records fl w content records) by assumption.
    assert (Hparse : Forall (fun c => isLaterStage c = true) (map CallParse values))
      by (apply Forall_map, Forall_forall; reflexivity).
    destruct (rangeRecords _ _ _ _ _) as [built|e|p] eqn:Hloop.
    + destruct (templateError (dataOf fl (snd built))) as [err|] eqn:Hx.
      * cbn [fst snd]. split; [split; reflexivity|]. split.
        { exists (map CallParse values ++ [CallExecute (dataOf fl (snd built))]).
          split; [reflexivity|].
          split; [apply Forall_app; split; [exact Hparse|repeat constructor]|].
          split; [discriminate|].
          intros records' Hr'. inversion Hr'; subst records'. rewrite Hloop, Hx.
          exists values, [CallExecute (dataOf fl (snd built))].
          split; [reflexivity|]. split; [exact Hvalues|].
          split; [eapply Hlen; reflexivity|reflexivity]. }
        { apply Hold. discriminate. }
      * cbn [fst snd]. split; [split; reflexivity|]. split.
        { exists (map CallParse values
                  ++ [CallExecute (dataOf fl (snd built));
                      FileOp (EvWriteFile (knownImportsPath fl)
                                (render (dataOf fl (snd built))))]).
          split; [reflexivity|].
          split; [apply Forall_app; split; [exact Hparse|repeat constructor]|].
          split; [discriminate|].
          intros records' Hr'. inversion Hr'; subst records'. rewrite Hloop, Hx.
          exists values, [CallExecute (dataOf fl (snd built));
                          FileOp (EvWriteFile (knownImportsPath fl)
                                    (render (dataOf fl (snd built))))].
          split; [reflexivity|]. split; [exact Hvalues|].
          split; [eapply Hlen; reflexivity|reflexivity]. }
        { exists [EvWriteFile (knownImportsPath fl) (render (dataOf fl (snd built)))].
          split; [|split; [repeat constructor|discriminate]].
          unfold ioutil_WriteFile. destruct (bool_decide _); simpl;
            rewrite <- !app_assoc; reflexivity. }
    + cbn [fst snd]. split; [split; reflexivity|]. split.
      * exists (map CallParse values).
        split; [reflexivity|].
        split; [exact Hparse|]. split; [discriminate|].
        intros records' Hr'. inversion Hr'; subst records'. rewrite Hloop.
        exists values, []. rewrite app_nil_r. auto.
      * apply Hold. discriminate.
    + cbn [fst snd]. split; [split; reflexivity|]. split.
      * exists (map CallParse values).
        split; [reflexivity|].
        split; [exact Hparse|]. split; [discriminate|].
        intros records' Hr'. inversion Hr'; subst records'. rewrite Hloop.
        exists values, []. rewrite app_nil_r. auto.
      * apply Hold. discriminate.
Qed.

(** C9.  The rows are indexed without a check.  After a successful read
    every record has 4 fields, so with both columns from 0 to 3 no index
    is out of range and [run] does not panic.  With a column outside 0..3
    and at least one record, [run] panics on the first record with an
    index out of range (of the key column when that one is outside, else
    of the value column) instead of returning an error, once the input is
    closed and before anything is written. *)
Theorem unguarded_column_index fl w content records :
  requiredFlags fl ->
  files w !! protoCsvPath fl = Some content ->
  ReadAll protoCsvReader content = inr records ->
  (0 <= keyColumn fl <= 3 -> 0 <= valueColumn fl <= 3 ->
   Forall (fun rec => exists imp value,
             index rec (keyColumn fl) = Ok imp /\
             index rec (valueColumn fl) = Ok value) records /\
   forall p, fst (run fl w) <> Panic p) /\
  (records <> [] ->
   ~ (0 <= keyColumn fl <= 3 /\ 0 <= valueColumn fl <= 3) ->
   run fl w =
   (Panic (IndexOutOfRange
             (if bool_decide (0 <= keyColumn fl <= 3)
              then valueColumn fl else keyColumn fl) 4),
    afterReading (protoCsvPath fl) w)).
Proof.
  intros Hfl Hf Hr. pose proof (ReadAll_four _ _ Hr) as Hfour. split.
  - intros Hk Hv. split.
    + eapply Forall_impl; [exact Hfour|]. simpl. intros rec Hlen.
      destruct (index_Ok rec (keyColumn fl)) as [imp Hi]; [lia|].
      destruct (index_Ok rec (valueColumn fl)) as [v Hj]; [lia|].
      eauto.
    + intros p. rewrite (run_records fl w content records) by assumption.
      destruct (rangeRecords _ _ _ _ _) as [built|e|q] eqn:Hl.
      * destruct (templateError _); [discriminate|].
        unfold ioutil_WriteFile. destruct (bool_decide _); discriminate.
      * discriminate.
      * exfalso. revert Hl.
        apply (rangeRecords_no_panic _ _ 4%nat); [exact Hfour|lia|lia].
  - intros Hne Hout.
    rewrite (run_records fl w content records) by assumption.
    destruct records as [|rec records]; [congruence|].
    inversion Hfour as [|? ? Hlen _]; subst. simpl.
    case_bool_decide as Hk.
    + destruct (index_Ok rec (keyColumn fl)) as [imp ->]; [lia|]. simpl.
      rewrite (index_Panic rec (valueColumn fl)) by lia.
      rewrite Hlen. reflexivity.
    + rewrite (index_Panic rec (keyColumn fl)) by lia.
      rewrite Hlen. reflexivity.
Qed.

(** C10.  The value of a row is parsed before its key is looked up in
    [seen].  A row whose value is not a label ends the loop with the error
    of [label.Parse], whatever [seen] holds, so also when the key of the
    row is in it with some label: no such row is skipped as a duplicate.
    An input with such a row makes [run] return an error and write
    nothing; when the loop reaches the row, the error is that of
    [label.Parse] on its value. *)
Theorem parse_error_before_duplicate_check fl w content pre rec post imp value e :
  requiredFlags fl ->
  files w !! protoCsvPath fl = Some content ->
  ReadAll protoCsvReader content = inr (pre ++ rec :: post) ->
  index rec (keyColumn fl) = Ok imp ->
  index rec (valueColumn fl) = Ok value ->
  Parse value = inl e ->
  (forall seen bindings seenLabel,
     seen !! imp = Some seenLabel ->
     rangeRecords (keyColumn fl) (valueColumn fl) (rec :: post) seen bindings = Err e) /\
  (exists e', run fl w = (Err e', afterReading (protoCsvPath fl) w)) /\
  ((exists st, rangeRecords (keyColumn fl) (valueColumn fl) pre ∅ [] = Ok st) ->
   run fl w = (Err e, afterReading (protoCsvPath fl) w)).
Proof.
  intros Hfl Hf Hr Hi Hv Hp.
  assert (Hrow : forall seen bindings,
            rangeRecords (keyColumn fl) (valueColumn fl) (rec :: post) seen bindings
            = Err e).
  { intros seen bindings. simpl. rewrite Hi, Hv. simpl.
    unfold label_Parse. rewrite Hp. reflexivity. }
  split; [intros seen bindings seenLabel _; apply Hrow|].
  rewrite (run_records fl w content _ Hfl Hf Hr).
  pose proof (ReadAll_four _ _ Hr) as Hfour.
  split.
  - destruct (rangeRecords _ _ (pre ++ rec :: post) _ _) as [[seen bs]|e'|p] eqn:E.
    + exfalso. rewrite rangeRecords_app in E.
      destruct (rangeRecords _ _ pre _ _) as [st| |]; try discriminate.
      cbn [obind] in E. rewrite Hrow in E. discriminate.
    + eauto.
    + exfalso. revert E.
      rewrite Forall_app, Forall_cons in Hfour. destruct Hfour as (Hpre & Hlen & Hpost).
      apply index_Ok_range in Hi, Hv. rewrite Hlen in Hi, Hv.
      apply (rangeRecords_no_panic _ _ 4%nat); [|exact Hi|exact Hv].
      apply Forall_app. split; [exact Hpre|]. constructor; assumption.
  - intros [st Hpre].
    rewrite rangeRecords_app, Hpre. cbn [obind]. rewrite Hrow. reflexivity.
Qed.

(** * More about the loop, the run and its outputs *)

(** The map [seen] and the slice [data.Bindings] go together: when they
    agree before the loop they agree after it. *)
Lemma rangeRecords_agree key value records :
  forall seen bindings seen' bindings',
    NoDup (map Import bindings) ->
    (forall k l, seen !! k = Some l <-> mkBinding k l ∈ bindings) ->
    size seen = length bindings ->
    rangeRecords key value records seen bindings = Ok (seen', bindings') ->
    NoDup (map Import bindings') /\
    (forall k l, seen' !! k = Some l <-> mkBinding k l ∈ bindings') /\
    size seen' = length bindings' /\
    (length bindings' <= length bindings + length records)%nat.
Proof.
  induction records as [|rec records IH];
    intros seen bindings seen' bindings' Hnd Hag Hsz Hok.
  - simpl in Hok. inversion Hok; subst. simpl. repeat split; auto; try lia; apply Hag.
  - destruct (rangeRecords_Ok_rowBinding _ _ _ _ _ _ _ Hok) as [b Hb].
    rewrite (rangeRecords_cons_pair _ _ _ _ _ _ _ Hb) in Hok.
    destruct (seen !! Import b) as [seenLabel|] eqn:Hseen.
    + destruct (negb (label.Equal seenLabel (Label b))); [discriminate|].
      destruct (IH _ _ _ _ Hnd Hag Hsz Hok) as (H1 & H2 & H3 & H4).
      repeat split; auto; try apply H2. simpl. lia.
    + destruct (IH (<[Import b := Label b]> seen) (bindings ++ [b]) seen' bindings')
        as (H1 & H2 & H3 & H4); auto.
      * rewrite map_app. simpl. apply NoDup_app. split; [exact Hnd|].
        split; [|apply NoDup_singleton].
        intros k Hk Hk'. apply list_elem_of_singleton in Hk'. subst k.
        apply list_elem_of_fmap in Hk as (b' & Heq & Hb').
        destruct b' as [k' l']. simpl in Heq. subst k'.
        apply Hag in Hb'. congruence.
      * intros k l. rewrite elem_of_app, list_elem_of_singleton, <- Hag.
        destruct (decide (Import b = k)) as [<-|Hne].
        -- rewrite lookup_insert_eq, Hseen. split.
           ++ intros H; inversion H; subst. right. destruct b; reflexivity.
           ++ intros [H|H]; [discriminate|]. rewrite <- H. reflexivity.
        -- rewrite lookup_insert_ne by assumption. split; [auto|].
           intros [H|H]; [exact H|]. subst b. simpl in Hne. congruence.
      * rewrite map_size_insert_None by assumption. rewrite length_app. simpl. lia.
      * repeat split; auto; try apply H2.
        rewrite length_app in H4. simpl in *. lia.
Qed.

(** X2.  When the loop ends normally, [data.Bindings] has no import key
    twice, [seen] maps a key to a label exactly when the pair is one of
    the bindings, and there are as many bindings as keys in [seen], at
    most one per record. *)
Theorem bindings_and_seen_agree key value records seen bindings :
  rangeRecords key value records ∅ [] = Ok (seen, bindings) ->
  NoDup (map Import bindings) /\
  (forall k l, seen !! k = Some l <-> mkBinding k l ∈ bindings) /\
  size seen = length bindings /\
  (length bindings <= length records)%nat.
Proof.
  intros Hok.
  apply rangeRecords_agree in Hok; [exact Hok|constructor| |reflexivity].
  intros k l. rewrite lookup_empty. split; [discriminate|]. intros H; inversion H.
Qed.

Lemma rowBindings_Permutation key value records records' :
  records ≡ₚ records' ->
  forall pairs,
    rowBindings key value records = Some pairs ->
    exists pairs', rowBindings key value records' = Some pairs' /\ pairs ≡ₚ pairs'.
Proof.
  induction 1 as [|rec r1 r2 _ IH|r1 r2 rs|r1 r2 r3 _ IH1 _ IH2]; intros pairs Hp.
  - exists pairs. auto.
  - apply rowBindings_Some_inv in Hp as (b & ps & -> & Hb & Hp).
    destruct (IH _ Hp) as (ps' & Hp' & Hperm).
    exists (b :: ps'). split; [apply rowBindings_cons; assumption|].
    constructor. exact Hperm.
  - apply rowBindings_Some_inv in Hp as (b2 & ps & -> & Hb2 & Hp).
    apply rowBindings_Some_inv in Hp as (b1 & ps' & -> & Hb1 & Hp).
    exists (b1 :: b2 :: ps'). split; [|apply perm_swap].
    apply rowBindings_cons; [assumption|]. apply rowBindings_cons; assumption.
  - destruct (IH1 _ Hp) as (ps2 & Hp2 & Hperm2).
    destruct (IH2 _ Hp2) as (ps3 & Hp3 & Hperm3).
    exists ps3. split; [assumption|]. etransitivity; eassumption.
Qed.

(** What the loop leaves in [seen], read off the pairs of the rows. *)
Lemma rangeRecords_seen_pairs key value records seen bindings :
  rangeRecords key value records ∅ [] = Ok (seen, bindings) ->
  exists pairs,
    rowBindings key value records = Some pairs /\
    (forall k l, seen !! k = Some l <-> mkBinding k l ∈ pairs).
Proof.
  intros Hok.
  apply rangeRecords_Ok in Hok as (pairs & Hp & _ & Hall & _ & Hfrom).
  exists pairs. split; [exact Hp|]. intros k l. split.
  - intros H. destruct (Hfrom k l H) as [H'|H']; [|exact H'].
    rewrite lookup_empty in H'. discriminate.
  - intros H. apply (Hall _ H).
Qed.

(** X3.  The order of the rows matters for the order of the bindings
    only: when the loop ends normally on some records, it ends normally on
    every permutation of them, with the same map [seen] and with a
    permutation of the same bindings. *)
Theorem row_order_only_orders_bindings key value records records' seen bindings :
  records ≡ₚ records' ->
  rangeRecords key value records ∅ [] = Ok (seen, bindings) ->
  exists bindings',
    rangeRecords key value records' ∅ [] = Ok (seen, bindings') /\
    bindings ≡ₚ bindings'.
Proof.
  intros Hperm Hok.
  destruct (rangeRecords_seen_pairs _ _ _ _ _ Hok) as (pairs & Hp & Hseen).
  destruct (rowBindings_Permutation _ _ _ _ Hperm _ Hp) as (pairs' & Hp' & Hpp).
  destruct (rangeRecords_succeeds key value records' pairs' ∅ [] Hp')
    as [[seen' bindings'] Hok'].
  { intros b l _ Hl. rewrite lookup_empty in Hl. discriminate. }
  { intros b1 b2 H1 H2 Heq.
    rewrite <- Hpp in H1, H2.
    destruct b1 as [k1 l1], b2 as [k2 l2]. simpl in *. subst k2.
    apply Hseen in H1, H2. congruence. }
  destruct (rangeRecords_seen_pairs _ _ _ _ _ Hok') as (pairs'' & Hp'' & Hseen').
  rewrite Hp' in Hp''. inversion Hp''; subst pairs''.
  assert (seen' = seen).
  { apply map_eq. intros k.
    destruct (seen' !! k) as [l|] eqn:E.
    - symmetry. apply Hseen. rewrite Hpp. apply Hseen'. exact E.
    - destruct (seen !! k) as [l|] eqn:E'; [|reflexivity].
      apply Hseen in E'. rewrite Hpp in E'. apply Hseen' in E'. congruence. }
  subst seen'. exists bindings'. split; [exact Hok'|].
  assert (Hstart : forall k l,
            (∅ : gmap string label.Label) !! k = Some l
            <-> mkBinding k l ∈ ([] : list binding)).
  { intros k l. rewrite lookup_empty. split; [discriminate|]. intros H; inversion H. }
  destruct (rangeRecords_agree key value records ∅ [] seen bindings)
    as (Hnd & Hmem & _); [constructor|exact Hstart|reflexivity|exact Hok|].
  destruct (rangeRecords_agree key value records' ∅ [] seen bindings')
    as (Hnd' & Hmem' & _); [constructor|exact Hstart|reflexivity|exact Hok'|].
  apply NoDup_Permutation.
  - eapply NoDup_fmap_1. exact Hnd.
  - eapply NoDup_fmap_1. exact Hnd'.
  - intros [k l]. rewrite <- Hmem, <- Hmem'. reflexivity.
Qed.

Lemma index_not_Err rec i e : index rec i <> Err e.
Proof.
  unfold index. destruct (i <? 0); [discriminate|].
  destruct (rec !! Z.to_nat i); discriminate.
Qed.

(** X4.  The errors of the loop are of two kinds only: the error of
    [label.Parse] on the value column of a row, or the error of line 122
    for two rows with the same key and different labels. *)
Theorem loop_errors_are_parse_errors_or_conflicts key value records e :
  rangeRecords key value records ∅ [] = Err e ->
  (exists rec v, rec ∈ records /\ index rec value = Ok v /\ Parse v = inl e) \/
  (exists rec1 rec2 k l1 l2,
     rec1 ∈ records /\ rec2 ∈ records /\
     rowBinding key value rec1 = Some (mkBinding k l1) /\
     rowBinding key value rec2 = Some (mkBinding k l2) /\
     l1 <> l2 /\ e = Errorf (multipleValues k l1 l2)).
Proof.
  assert (Hgen : forall records seen bindings,
    rangeRecords key value records seen bindings = Err e ->
    (exists rec v, rec ∈ records /\ index rec value = Ok v /\ Parse v = inl e) \/
    (exists rec2 k l1 l2,
       rec2 ∈ records /\
       rowBinding key value rec2 = Some (mkBinding k l2) /\
       l1 <> l2 /\ e = Errorf (multipleValues k l1 l2) /\
       (seen !! k = Some l1 \/
        exists rec1, rec1 ∈ records /\
                     rowBinding key value rec1 = Some (mkBinding k l1)))).
  { clear records. induction records as [|rec records IH]; intros seen bindings Herr.
    - discriminate.
    - destruct (rowBinding key value rec) as [b|] eqn:Hb.
      + rewrite (rangeRecords_cons_pair _ _ _ _ _ _ _ Hb) in Herr.
        assert (Hb' : rowBinding key value rec = Some (mkBinding (Import b) (Label b)))
          by (destruct b; exact Hb).
        assert (Hlift : forall seen' bindings',
                  (seen' = seen \/ seen' = <[Import b := Label b]> seen) ->
                  rangeRecords key value records seen' bindings' = Err e ->
                  (exists rec0 v, rec0 ∈ rec :: records /\
                                  index rec0 value = Ok v /\ Parse v = inl e) \/
                  (exists rec2 k l1 l2,
                     rec2 ∈ rec :: records /\
                     rowBinding key value rec2 = Some (mkBinding k l2) /\
                     l1 <> l2 /\ e = Errorf (multipleValues k l1 l2) /\
                     (seen !! k = Some l1 \/
                      exists rec1, rec1 ∈ rec :: records /\
                        rowBinding key value rec1 = Some (mkBinding k l1)))).
        { intros seen' bindings' Hs Hrest.
          destruct (IH _ _ Hrest) as [(rec0 & v & Hin & Hv & Hpe)
                                     |(rec2 & k & l1 & l2 & Hin & H2 & Hne & -> & H1)].
          - left. exists rec0, v. split; [apply elem_of_cons; auto|auto].
          - right. exists rec2, k, l1, l2.
            split; [apply elem_of_cons; auto|]. split; [exact H2|].
            split; [exact Hne|]. split; [reflexivity|].
            destruct H1 as [H1|(rec1 & Hin1 & H1)].
            + destruct Hs as [->| ->]; [auto|].
              destruct (decide (Import b = k)) as [<-|Hk].
              * rewrite lookup_insert_eq in H1. inversion H1; subst.
                right. exists rec. split; [apply elem_of_cons; auto|exact Hb'].
              * rewrite lookup_insert_ne in H1 by assumption. auto.
            + right. exists rec1. split; [apply elem_of_cons; auto|exact H1]. }
        destruct (seen !! Import b) as [seenLabel|] eqn:Hseen.
        * destruct (label.Equal seenLabel (Label b)) eqn:Heq; simpl in Herr.
          -- apply (Hlift seen bindings); auto.
          -- inversion Herr; subst. apply Equal_false in Heq.
             right. exists rec, (Import b), seenLabel, (Label b).
             split; [apply elem_of_cons; auto|]. auto.
        * apply (Hlift _ _ (or_intror eq_refl) Herr).
      + left. unfold rowBinding in Hb. simpl in Herr.
        destruct (index rec key) as [imp|e0|] eqn:Hk;
          [|exfalso; exact (index_not_Err _ _ _ Hk)|discriminate].
        destruct (index rec value) as [v|e0|] eqn:Hv;
          [|exfalso; exact (index_not_Err _ _ _ Hv)|discriminate].
        simpl in Herr. unfold label_Parse in Herr.
        destruct (Parse v) as [e'|lbl] eqn:Hp; [|discriminate].
        simpl in Herr. inversion Herr; subst.
        exists rec, v. split; [apply elem_of_cons; auto|auto]. }
  intros Herr.
  destruct (Hgen _ _ _ Herr) as [H|(rec2 & k & l1 & l2 & Hin & H2 & Hne & He & H1)];
    [left; exact H|].
  right. destruct H1 as [H1|(rec1 & Hin1 & H1)].
  - rewrite lookup_empty in H1. discriminate.
  - exists rec1, rec2, k, l1, l2. auto 10.
Qed.

(** Every way [run] can go, with the result and the file system it leaves. *)
Lemma run_cases fl w :
  (exists name, missingFlag fl = Some name /\ run fl w = (Err (notSet name), w)) \/
  (requiredFlags fl /\ files w !! protoCsvPath fl = None /\
   run fl w = (Err (PathError "open" (protoCsvPath fl) ENOENT),
               log (EvOpen (protoCsvPath fl)) w)) \/
  (requiredFlags fl /\
   exists content, files w !! protoCsvPath fl = Some content /\
     ((exists e, ReadAll protoCsvReader content = inl e /\
                 run fl w = (Err (CsvError e), afterReading (protoCsvPath fl) w)) \/
      (exists records, ReadAll protoCsvReader content = inr records /\
         ((exists e,
             rangeRecords (keyColumn fl) (valueColumn fl) records ∅ [] = Err e /\
             run fl w = (Err e, afterReading (protoCsvPath fl) w)) \/
          (exists p,
             rangeRecords (keyColumn fl) (valueColumn fl) records ∅ [] = Panic p /\
             run fl w = (Panic p, afterReading (protoCsvPath fl) w)) \/
          (exists built,
             rangeRecords (keyColumn fl) (valueColumn fl) records ∅ [] = Ok built /\
             ((exists e, templateError (dataOf fl (snd built)) = Some e /\
                         run fl w = (Err e, afterReading (protoCsvPath fl) w)) \/
              (templateError (dataOf fl (snd built)) = None /\
               run fl w = ioutil_WriteFile (knownImportsPath fl)
                            (render (dataOf fl (snd built)))
                            (afterReading (protoCsvPath fl) w)))))))).
Proof.
  destruct (missingFlag fl) as [name|] eqn:Hm.
  { left. exists name. split; [reflexivity|apply run_missing_flag, Hm]. }
  apply missingFlag_None in Hm. right.
  destruct (files w !! protoCsvPath fl) as [content|] eqn:Hf.
  2:{ left. split; [assumption|]. split; [reflexivity|].
      apply run_open_error; assumption. }
  right. split; [assumption|]. exists content. split; [reflexivity|].
  destruct (ReadAll protoCsvReader content) as [e|records] eqn:Hr.
  { left. exists e. split; [reflexivity|]. eapply run_csv_error; eassumption. }
  right. exists records. split; [reflexivity|].
  rewrite (run_records fl w content records) by assumption.
  destruct (rangeRecords _ _ _ _ _) as [built|e|p].
  - right. right. exists built. split; [reflexivity|].
    destruct (templateError _) as [e|]; [left; eauto|right; auto].
  - left. eauto.
  - right. left. eauto.
Qed.

Lemma WriteFile_result path text w :
  (path ∈ readonly w /\
   ioutil_WriteFile path text w
   = (Err (PathError "open" path EACCES), log (EvWriteFile path text) w)) \/
  ((path ∉ readonly w) /\
   ioutil_WriteFile path text w = (Ok tt, afterWriting path text w)).
Proof.
  unfold ioutil_WriteFile, afterWriting. case_bool_decide; [left|right]; auto.
Qed.

(** The bindings the loop returns from the empty state, read off the
    pairs of the rows. *)
Lemma rangeRecords_first key value records seen bindings :
  rangeRecords key value records ∅ [] = Ok (seen, bindings) ->
  exists pairs,
    rowBindings key value records = Some pairs /\
    bindings = firstOccurrences pairs /\
    (forall b1 b2, b1 ∈ pairs -> b2 ∈ pairs ->
                   Import b1 = Import b2 -> Label b1 = Label b2).
Proof.
  intros Hok.
  apply rangeRecords_Ok in Hok as (pairs & Hp & Hbs & Hall & _).
  exists pairs. split; [exact Hp|]. split.
  - rewrite Hbs. simpl. f_equal. apply filter_all. apply Forall_forall.
    intros b _. apply lookup_empty.
  - intros b1 b2 H1 H2 Heq. apply Hall in H1, H2. rewrite Heq in H1. congruence.
Qed.

(** X5.  [run] returns without error exactly when the four flags are set,
    the input file exists and is read as records, every record has a pair
    (both columns exist and the value is a label), no key comes with two
    labels, the template reports no error and the output can be written.
    It then leaves the file system it found, with the rendered first
    occurrences of the pairs written at the output path, after the input
    was opened, read and closed. *)
Theorem run_succeeds_exactly_when fl w w' :
  run fl w = (Ok tt, w') <->
  requiredFlags fl /\
  exists content records pairs,
    files w !! protoCsvPath fl = Some content /\
    ReadAll protoCsvReader content = inr records /\
    rowBindings (keyColumn fl) (valueColumn fl) records = Some pairs /\
    (forall b1 b2, b1 ∈ pairs -> b2 ∈ pairs ->
                   Import b1 = Import b2 -> Label b1 = Label b2) /\
    templateError (dataOf fl (firstOccurrences pairs)) = None /\
    (knownImportsPath fl ∉ readonly w) /\
    w' = afterWriting (knownImportsPath fl)
           (render (dataOf fl (firstOccurrences pairs)))
           (afterReading (protoCsvPath fl) w).
Proof.
  split.
  - intros Hrun.
    destruct (run_cases fl w)
      as [(name & _ & H)|[(_ & _ & H)|(Hfl & content & Hf &
           [(e & _ & H)|(records & Hr &
             [(e & _ & H)|[(p & _ & H)|(built & Hl &
               [(e & _ & H)|(Hx & H)])]])])]];
      rewrite H in Hrun; try discriminate.
    split; [exact Hfl|].
    destruct built as [seen bindings].
    destruct (rangeRecords_first _ _ _ _ _ Hl) as (pairs & Hp & -> & Hfun).
    simpl in Hx, Hrun.
    exists content, records, pairs.
    destruct (WriteFile_result (knownImportsPath fl)
                (render (dataOf fl (firstOccurrences pairs)))
                (afterReading (protoCsvPath fl) w)) as [[_ Hw]|[Hro Hw]];
      rewrite Hw in Hrun; [discriminate|].
    inversion Hrun; subst. auto 10.
  - intros (Hfl & content & records & pairs & Hf & Hr & Hp & Hfun & Hx & Hro & ->).
    rewrite (run_records fl w content records) by assumption.
    destruct (rangeRecords_succeeds _ _ _ pairs ∅ [] Hp) as [[seen bindings] Hok];
      [intros b l _ Hl; rewrite lookup_empty in Hl; discriminate|exact Hfun|].
    rewrite Hok.
    destruct (rangeRecords_first _ _ _ _ _ Hok) as (pairs' & Hp' & -> & _).
    rewrite Hp in Hp'. inversion Hp'; subst pairs'. simpl. rewrite Hx.
    destruct (WriteFile_result (knownImportsPath fl)
                (render (dataOf fl (firstOccurrences pairs)))
                (afterReading (protoCsvPath fl) w)) as [[Hro' _]|[_ Hw]];
      [contradiction|exact Hw].
Qed.

(** X6.  [run] changes no file other than the one at the output path and
    leaves alone which paths can be written; the operations it attempts
    are on the input path, except writes, which are on the output path. *)
Theorem run_touches_two_paths_only fl w :
  readonly (snd (run fl w)) = readonly w /\
  (forall path, path <> knownImportsPath fl ->
     files (snd (run fl w)) !! path = files w !! path) /\
  exists evs,
    trace (snd (run fl w)) = trace w ++ evs /\
    Forall (fun e => eventPath e
                     = if isWrite e then knownImportsPath fl else protoCsvPath fl) evs.
Proof.
  assert (H0 : forall w0 : World,
            readonly w0 = readonly w -> files w0 = files w ->
            forall evs, trace w0 = trace w ++ evs ->
            Forall (fun e => eventPath e
                     = if isWrite e then knownImportsPath fl else protoCsvPath fl) evs ->
            readonly w0 = readonly w /\
            (forall path, path <> knownImportsPath fl ->
               files w0 !! path = files w !! path) /\
            exists evs,
              trace w0 = trace w ++ evs /\
              Forall (fun e => eventPath e
                     = if isWrite e then knownImportsPath fl else protoCsvPath fl) evs).
  { intros w0 Hro Hfs evs Htr Hall. split; [exact Hro|]. split; [|eauto].
    intros path _. rewrite Hfs. reflexivity. }
  assert (Hread : trace (afterReading (protoCsvPath fl) w)
                  = trace w ++ [EvOpen (protoCsvPath fl); EvRead (protoCsvPath fl);
                                EvClose (protoCsvPath fl)])
    by (unfold afterReading, log; simpl; rewrite <- !app_assoc; reflexivity).
  destruct (run_cases fl w)
    as [(name & _ & H)|[(_ & _ & H)|(Hfl & content & Hf &
         [(e & _ & H)|(records & Hr &
           [(e & _ & H)|[(p & _ & H)|(built & Hl &
             [(e & _ & H)|(Hx & H)])]])])]];
    rewrite H; simpl snd.
  - apply (H0 w eq_refl eq_refl []); [rewrite app_nil_r; reflexivity|constructor].
  - apply (H0 (log (EvOpen (protoCsvPath fl)) w) eq_refl eq_refl
             [EvOpen (protoCsvPath fl)]);
      [reflexivity|repeat constructor].
  - apply (H0 (afterReading (protoCsvPath fl) w) eq_refl eq_refl _ Hread).
    repeat constructor.
  - apply (H0 (afterReading (protoCsvPath fl) w) eq_refl eq_refl _ Hread).
    repeat constructor.
  - apply (H0 (afterReading (protoCsvPath fl) w) eq_refl eq_refl _ Hread).
    repeat constructor.
  - apply (H0 (afterReading (protoCsvPath fl) w) eq_refl eq_refl _ Hread).
    repeat constructor.
  - destruct (WriteFile_result (knownImportsPath fl) (render (dataOf fl (snd built)))
                (afterReading (protoCsvPath fl) w)) as [[_ Hw]|[_ Hw]];
      rewrite Hw; simpl snd.
    + apply (H0 (log (EvWriteFile (knownImportsPath fl)
                          (render (dataOf fl (snd built))))
                     (afterReading (protoCsvPath fl) w)) eq_refl eq_refl
               [EvOpen (protoCsvPath fl); EvRead (protoCsvPath fl);
                EvClose (protoCsvPath fl);
                EvWriteFile (knownImportsPath fl) (render (dataOf fl (snd built)))]).
      * unfold log. simpl. rewrite <- !app_assoc. reflexivity.
      * repeat constructor.
    + split; [reflexivity|]. split.
      * intros path Hne. unfold afterWriting. simpl.
        rewrite lookup_insert_ne by congruence. reflexivity.
      * exists [EvOpen (protoCsvPath fl); EvRead (protoCsvPath fl);
                EvClose (protoCsvPath fl);
                EvWriteFile (knownImportsPath fl) (render (dataOf fl (snd built)))].
        split; [|repeat constructor].
        unfold afterWriting, log. simpl. rewrite <- !app_assoc. reflexivity.
Qed.

(** X7.  Every error [run] returns is the error of the first stage that
    fails before the writer, or the error of the writer after all of them
    have passed. *)
Theorem run_errors_have_a_stage fl w e w' :
  run fl w = (Err e, w') ->
  firstFailure fl w e \/
  exists text,
    allStagesPassed fl w text /\
    knownImportsPath fl ∈ readonly w /\
    e = PathError "open" (knownImportsPath fl) EACCES.
Proof.
  intros Hrun.
  destruct (run_cases fl w)
    as [(name & Hm & H)|[(Hfl & Hf & H)|(Hfl & content & Hf &
         [(e0 & Hr & H)|(records & Hr &
           [(e0 & Hl & H)|[(p & _ & H)|(built & Hl &
             [(e0 & Hx & H)|(Hx & H)])]])])]];
    rewrite H in Hrun; try discriminate.
  - inversion Hrun; subst. left. apply FailFlags. exact Hm.
  - inversion Hrun; subst. left. apply FailOpen; [apply missingFlag_None|]; assumption.
  - inversion Hrun; subst. left.
    eapply FailRead; [apply missingFlag_None| |]; eassumption.
  - inversion Hrun; subst. left.
    eapply FailLoop; [apply missingFlag_None| | |]; eassumption.
  - inversion Hrun; subst. left.
    eapply FailRender; [apply missingFlag_None| | | |]; try eassumption.
    unfold knownImportsTpl_Execute. rewrite Hx. reflexivity.
  - destruct (WriteFile_result (knownImportsPath fl) (render (dataOf fl (snd built)))
                (afterReading (protoCsvPath fl) w)) as [[Hro Hw]|[_ Hw]];
      rewrite Hw in Hrun; [|discriminate].
    inversion Hrun; subst. right.
    exists (render (dataOf fl (snd built))). split; [|auto].
    split; [exact Hfl|]. exists content, records, built.
    unfold knownImportsTpl_Execute. rewrite Hx. auto.
Qed.

(** X8.  [run] panics only on the first record of a successfully read
    input, with an index out of range, and only when a column is outside
    0..3. *)
Theorem run_panics_only_on_a_column_out_of_range fl w p w' :
  run fl w = (Panic p, w') ->
  requiredFlags fl /\
  exists content rec records,
    files w !! protoCsvPath fl = Some content /\
    ReadAll protoCsvReader content = inr (rec :: records) /\
    ~ (0 <= keyColumn fl <= 3 /\ 0 <= valueColumn fl <= 3) /\
    p = IndexOutOfRange
          (if bool_decide (0 <= keyColumn fl <= 3)
           then valueColumn fl else keyColumn fl) 4 /\
    w' = afterReading (protoCsvPath fl) w.
Proof.
  intros Hrun.
  destruct (run_cases fl w)
    as [(name & Hm & H)|[(Hfl & Hf & H)|(Hfl & content & Hf &
         [(e0 & Hr & H)|(records & Hr &
           [(e0 & Hl & H)|[(q & Hl & H)|(built & Hl &
             [(e0 & Hx & H)|(Hx & H)])]])])]];
    rewrite H in Hrun; try discriminate.
  - inversion Hrun; subst. split; [exact Hfl|].
    pose proof (ReadAll_four _ _ Hr) as Hfour.
    assert (Hout : ~ (0 <= keyColumn fl <= 3 /\ 0 <= valueColumn fl <= 3)).
    { intros [Hk Hv]. revert Hl.
      apply (rangeRecords_no_panic _ _ 4%nat); [exact Hfour|lia|lia]. }
    destruct records as [|rec records]; [discriminate|].
    exists content, rec, records. repeat split; auto.
    inversion Hfour as [|? ? Hlen _]; subst. simpl in Hl.
    case_bool_decide as Hk.
    + destruct (index_Ok rec (keyColumn fl)) as [imp Hi]; [lia|].
      rewrite Hi in Hl. simpl in Hl.
      rewrite (index_Panic rec (valueColumn fl)) in Hl by lia.
      simpl in Hl. rewrite Hlen in Hl. congruence.
    + rewrite (index_Panic rec (keyColumn fl)) in Hl by lia.
      simpl in Hl. rewrite Hlen in Hl. congruence.
  - destruct (WriteFile_result (knownImportsPath fl) (render (dataOf fl (snd built)))
                (afterReading (protoCsvPath fl) w)) as [[_ Hw]|[_ Hw]];
      rewrite Hw in Hrun; discriminate.
Qed.

Lemma ReadAllLines_nothing_but_skipped r ls :
  Forall (fun l => isComment r l || isEmptyLine l = true) ls ->
  ReadAllLines r ls = inr [].
Proof.
  induction 1 as [|l ls Hl _ IH]; [reflexivity|].
  rewrite ReadAllLines_skip by assumption. exact IH.
Qed.

(** X9.  An input that holds nothing but comment lines and empty lines
    (an empty file is one) is read as no record at all.  The loop then
    indexes nothing: whatever the key and value columns are, also outside
    0..3 or negative, [run] does not panic and writes the table without
    entries. *)
Theorem input_without_rows_gives_empty_table fl w content :
  requiredFlags fl ->
  files w !! protoCsvPath fl = Some content ->
  Forall (fun l => isComment protoCsvReader l || isEmptyLine l = true) (lines content) ->
  templateError (dataOf fl []) = None ->
  knownImportsPath fl ∉ readonly w ->
  ReadAll protoCsvReader content = inr [] /\
  forall key value,
    run (mkFlags (protoCsvPath fl) (knownImportsPath fl) (package_ fl) (var_ fl)
                 key value) w
    = (Ok tt,
       afterWriting (knownImportsPath fl) (render (dataOf fl []))
         (afterReading (protoCsvPath fl) w)).
Proof.
  intros Hfl Hf Hskip Hx Hro.
  assert (Hr : ReadAll protoCsvReader content = inr [])
    by (apply ReadAllLines_nothing_but_skipped, Hskip).
  split; [exact Hr|]. intros key value.
  rewrite (run_records (mkFlags _ _ _ _ key value) w content []); [|exact Hfl|exact Hf|exact Hr].
  simpl. change (dataOf _ []) with (dataOf fl []). rewrite Hx.
  destruct (WriteFile_result (knownImportsPath fl) (render (dataOf fl []))
              (afterReading (protoCsvPath fl) w)) as [[Hro' _]|[_ Hw]];
    [contradiction|exact Hw].
Qed.

Lemma lines_line body post :
  noLF body = true ->
  lines (body +:+ String LF post)
  = normLine (body +:+ String LF EmptyString) :: lines post.
Proof.
  intros Hn. unfold lines. rewrite splitLines_line by exact Hn. reflexivity.
Qed.

(** The text of the template is no input for the reader: its first line
    is empty and its second line is one field. *)
Lemma ReadAll_render d : ReadAll protoCsvReader (render d) = inl ErrFieldCount.
Proof.
  assert (Hshape : exists rest,
            render d
            = EmptyString +:+ String LF
                ("// Generated by internal/language/proto/gen/gen_known_imports.go"
                 +:+ String LF rest)).
  { eexists. unfold render, NL. reflexivity. }
  destruct Hshape as [rest ->]. unfold ReadAll.
  rewrite lines_line by reflexivity.
  rewrite lines_line by reflexivity.
  rewrite ReadAllLines_skip by reflexivity.
  rewrite ReadAllLines_unfold. unfold readRecord.
  change (readFields protoCsvReader ?ls)
    with (readFields protoCsvReader ls).
  simpl readFields.
  rewrite parseRecord_plain by reflexivity. reflexivity.
Qed.

(** X10.  The generated text is never a valid input: the reader stops at
    its second line, which is one field.  So when the output path is the
    input path, a successful run overwrites its own input, and the next
    run fails with the wrong-number-of-fields error. *)
Theorem output_over_input_breaks_the_next_run fl w w' :
  protoCsvPath fl = knownImportsPath fl ->
  run fl w = (Ok tt, w') ->
  (exists text, files w' !! protoCsvPath fl = Some text /\
                ReadAll protoCsvReader text = inl ErrFieldCount) /\
  run fl w' = (Err (CsvError ErrFieldCount), afterReading (protoCsvPath fl) w').
Proof.
  intros Hsame Hrun.
  pose proof Hrun as Hrun'.
  apply run_Ok_output in Hrun' as (c & r & b & Hf & Hr & Hl & Hx & Hw & Hro & Hnot).
  assert (Hfl : requiredFlags fl).
  { apply missingFlag_None. destruct (missingFlag fl) as [name|] eqn:Hm; [|reflexivity].
    rewrite (run_missing_flag _ _ _ Hm) in Hrun. discriminate. }
  assert (Hf' : files w' !! protoCsvPath fl = Some (render (dataOf fl (snd b)))).
  { rewrite Hw, Hsame. apply lookup_insert_eq. }
  split.
  - eexists. split; [exact Hf'|apply ReadAll_render].
  - eapply run_csv_error; [exact Hfl|exact Hf'|apply ReadAll_render].
Qed.

Lemma rowBindings_each key value records : forall pairs rec,
  rowBindings key value records = Some pairs ->
  rec ∈ records -> exists b, rowBinding key value rec = Some b.
Proof.
  induction records as [|rec0 records IH]; intros pairs rec Hp Hin.
  - inversion Hin.
  - apply rowBindings_Some_inv in Hp as (b0 & pairs' & -> & Hb0 & Hp).
    apply elem_of_cons in Hin as [->|Hin]; [eauto|].
    eapply IH; eassumption.
Qed.

(** X11.  Rows that are in the table already add nothing, however many
    of them follow: when the loop ends normally on some records, it ends
    with the same [seen] and the same bindings on these records followed
    by any of them again, so on the table followed by itself. *)
Theorem rows_again_add_nothing key value records more seen bindings :
  rangeRecords key value records ∅ [] = Ok (seen, bindings) ->
  (forall rec, rec ∈ more -> rec ∈ records) ->
  rangeRecords key value (records ++ more) ∅ [] = Ok (seen, bindings) /\
  rangeRecords key value (records ++ records) ∅ [] = Ok (seen, bindings).
Proof.
  intros Hok.
  assert (Hgen : forall more, (forall rec, rec ∈ more -> rec ∈ records) ->
            rangeRecords key value (records ++ more) ∅ [] = Ok (seen, bindings)).
  { clear more. intros more Hmore.
    rewrite rangeRecords_app, Hok. cbn [obind fst snd].
    induction more as [|rec more IH]; [reflexivity|].
    assert (Hin : rec ∈ records) by (apply Hmore, elem_of_cons; auto).
    pose proof Hok as Hp. apply rangeRecords_Ok in Hp as (pairs & Hp & _).
    destruct (rowBindings_each _ _ _ _ _ Hp Hin) as [b Hb].
    rewrite (rangeRecords_cons_pair _ _ _ _ _ _ _ Hb).
    rewrite (rangeRecords_seen _ _ _ _ _ _ _ Hok Hin Hb).
    replace (label.Equal (Label b) (Label b)) with true
      by (symmetry; apply Equal_true; reflexivity).
    simpl. apply IH. intros rec' Hrec'. apply Hmore, elem_of_cons. auto. }
  intros Hmore. split; [apply Hgen, Hmore|apply Hgen; auto].
Qed.

End Generator.

(** * Examples

    Each statement above that has hypotheses is applied here to one of the
    inputs of [sample]. *)

Local Abbreviation sampleRun :=
  (run sample.Parse sample.LabelString sample.Quote sample.noTemplateError).

Lemma required_sample_flags key value : requiredFlags (sample.flagsOf key value).
Proof. repeat split; discriminate. Qed.

Lemma bindings_in_first_occurrence_order_example :
  rowBindings sample.Parse 0 1 [sample.recordA; sample.recordB; sample.recordA]
  = Some [mkBinding "a.proto" sample.labelA; mkBinding "b.proto" sample.labelB;
          mkBinding "a.proto" sample.labelA] /\
  (forall seen bindings,
      rangeRecords sample.Parse sample.LabelString 0 1
        [sample.recordA; sample.recordB; sample.recordA] ∅ [] = Ok (seen, bindings) ->
      bindings = [mkBinding "a.proto" sample.labelA; mkBinding "b.proto" sample.labelB]) /\
  rangeRecords sample.Parse sample.LabelString 0 1
    ([sample.recordA; sample.recordB; sample.recordA] ++ sample.recordB :: []) ∅ []
  = rangeRecords sample.Parse sample.LabelString 0 1
      ([sample.recordA; sample.recordB; sample.recordA] ++ []) ∅ [].
Proof.
  pose proof (bindings_in_first_occurrence_order sample.Parse sample.LabelString 0 1
                [sample.recordA; sample.recordB; sample.recordA]
                [mkBinding "a.proto" sample.labelA; mkBinding "b.proto" sample.labelB;
                 mkBinding "a.proto" sample.labelA] eq_refl)
    as (Hshape & _ & _ & Hskip).
  split; [reflexivity|]. split; [exact Hshape|].
  apply (Hskip sample.recordB (mkBinding "b.proto" sample.labelB) []).
  - reflexivity.
  - apply elem_of_cons. right. apply elem_of_cons. left. reflexivity.
  - eexists. vm_compute. reflexivity.
Defined.

Lemma conflicting_labels_fail_example :
  sampleRun
    (sample.flagsOf 0 1) (sample.world sample.conflicting)
  = (Err (Errorf "for key a.proto, multiple values (@r//p:a and @r//p:b)"),
     afterReading sample.inputPath (sample.world sample.conflicting)).
Proof.
  refine (proj1 (proj2 (conflicting_labels_fail
            sample.Parse sample.LabelString sample.Quote
            sample.noTemplateError
            (sample.flagsOf 0 1) (sample.world sample.conflicting) sample.conflicting
            [sample.recordA] sample.recordA' [] sample.recordA
            "a.proto" sample.labelA sample.labelB
            (required_sample_flags 0 1) _ _ _ _ _ _)) _).
  - reflexivity.
  - vm_compute. reflexivity.
  - apply elem_of_cons. left. reflexivity.
  - reflexivity.
  - reflexivity.
  - discriminate.
  - eexists. vm_compute. reflexivity.
Defined.

(** C2 as it is stated does not hold: [run] stops at the first row that
    fails.  Before two rows with the key [a.proto] and two different
    labels, a row whose value is no label makes the run return the error
    of [label.Parse], and a pair of rows that conflict on [b.proto] makes
    it return the error that names [b.proto]; neither names [a.proto]. *)
Lemma earlier_failure_hides_the_conflict :
  csv.ReadAll protoCsvReader (sample.line "x.proto" "p:a" +:+ sample.conflicting)
  = inr [["x.proto"; "p:a"; "x"; "y"]; sample.recordA; sample.recordA'] /\
  rowBinding sample.Parse 0 1 sample.recordA
  = Some (mkBinding "a.proto" sample.labelA) /\
  rowBinding sample.Parse 0 1 sample.recordA'
  = Some (mkBinding "a.proto" sample.labelB) /\
  sample.labelA <> sample.labelB /\
  sampleRun (sample.flagsOf 0 1)
    (sample.world (sample.line "x.proto" "p:a" +:+ sample.conflicting))
  = (Err (Errorf "label parse error: p:a"),
     afterReading sample.inputPath
       (sample.world (sample.line "x.proto" "p:a" +:+ sample.conflicting))) /\
  sampleRun (sample.flagsOf 0 1)
    (sample.world (sample.line "b.proto" "@r//p:b" +:+ sample.line "b.proto" "@r//p:a"
                     +:+ sample.conflicting))
  = (Err (Errorf "for key b.proto, multiple values (@r//p:b and @r//p:a)"),
     afterReading sample.inputPath
       (sample.world (sample.line "b.proto" "@r//p:b" +:+ sample.line "b.proto" "@r//p:a"
                        +:+ sample.conflicting))).
Proof.
  split; [vm_compute; reflexivity|]. split; [reflexivity|]. split; [reflexivity|].
  split; [discriminate|]. split; vm_compute; reflexivity.
Qed.

Lemma fail_fast_no_partial_output_example :
  (exists w',
     sampleRun
       (sample.flagsOf 0 1) (sample.world sample.unparsable)
     = (Err (Errorf "label parse error: p:a"), w') /\
     untouched (sample.world sample.unparsable) w') /\
  (exists w',
     run sample.Parse sample.LabelString sample.Quote sample.brokenTemplate
       (sample.flagsOf 0 1) (sample.world sample.repeated)
     = (Err (Errorf "template: known_imports.go: write failed"), w') /\
     untouched (sample.world sample.repeated) w').
Proof.
  split.
  - apply (proj1 (fail_fast_no_partial_output
                    sample.Parse sample.LabelString sample.Quote
            sample.noTemplateError
                    (sample.flagsOf 0 1) (sample.world sample.unparsable))).
    apply FailLoop with (content := sample.unparsable)
                        (records := [sample.recordA; sample.recordBad]).
    + reflexivity.
    + reflexivity.
    + vm_compute. reflexivity.
    + vm_compute. reflexivity.
  - apply (proj1 (fail_fast_no_partial_output
                    sample.Parse sample.LabelString sample.Quote sample.brokenTemplate
                    (sample.flagsOf 0 1) (sample.world sample.repeated))).
    eapply FailRender with (content := sample.repeated)
                           (records := [sample.recordA; sample.recordB; sample.recordA]).
    + reflexivity.
    + reflexivity.
    + vm_compute. reflexivity.
    + vm_compute. reflexivity.
    + reflexivity.
Defined.

Lemma wrong_field_count_aborts_example :
  csv.ReadAll protoCsvReader sample.short = inl csv.ErrFieldCount /\
  sampleRun
    (sample.flagsOf 3 2) (sample.world sample.short)
  = (Err (CsvError csv.ErrFieldCount),
     afterReading sample.inputPath (sample.world sample.short)).
Proof.
  destruct (wrong_field_count_aborts sample.Parse sample.LabelString sample.Quote
            sample.noTemplateError
              (sample.flagsOf 0 1) (sample.world sample.short) sample.short
              ["b.proto"; "@r//p:b"; "x"]) as [Hread Hrun].
  - apply required_sample_flags.
  - reflexivity.
  - vm_compute. apply elem_of_cons. right. apply elem_of_cons. left. reflexivity.
  - simpl. lia.
  - split; [exact Hread|]. exact (Hrun 3 2).
Defined.

Lemma comment_lines_are_skipped_example :
  csv.ReadAll protoCsvReader
    (sample.line "a.proto" "@r//p:a" +:+ String HASH " a,b,c,d,e,f"
       +:+ String LF (sample.line "b.proto" "@r//p:b"))
  = inr [sample.recordA; sample.recordB] /\
  csv.ReadAll protoCsvReader
    (sample.line "a.proto" "@r//p:a" +:+ String HASH " the end")
  = inr [sample.recordA] /\
  csv.ReadAll protoCsvReader
    (sample.quotedLine +:+ String HASH " a,b" +:+ String LF (sample.line "b.proto" "@r//p:b"))
  = inr [sample.recordA; sample.recordB] /\
  csv.readRecord protoCsvReader [" # note" +:+ NL; sample.line "b.proto" "@r//p:b"]
  = csv.Bad csv.ErrFieldCount /\
  csv.readRecord protoCsvReader [" #k,@r//p:a,x,y" +:+ NL; sample.line "b.proto" "@r//p:b"]
  = csv.Next [" #k"; "@r//p:a"; "x"; "y"] [sample.line "b.proto" "@r//p:b"] /\
  csv.ReadAll protoCsvReader
    (sample.line "a.proto" "@r//p:a" +:+ " # note" +:+ NL +:+ sample.line "b.proto" "@r//p:b")
  = inl csv.ErrFieldCount.
Proof.
  destruct comment_lines_are_skipped as (_ & Hcut & Hacc & _ & Hplain & Hrows).
  destruct (Hcut (sample.line "a.proto" "@r//p:a")
              " a,b,c,d,e,f" (sample.line "b.proto" "@r//p:b")) as [H1 _];
    [reflexivity|reflexivity|reflexivity|].
  destruct (Hcut (sample.line "a.proto" "@r//p:a")
              " the end" EmptyString) as [_ H2];
    [reflexivity|reflexivity|reflexivity|].
  destruct (Hacc sample.quotedLine [sample.recordA]
              " a,b" (sample.line "b.proto" "@r//p:b")) as [H3 _];
    [reflexivity|vm_compute; reflexivity|reflexivity|].
  pose proof (Hplain (" # note" +:+ NL) [sample.line "b.proto" "@r//p:b"]
                eq_refl eq_refl eq_refl) as H4.
  pose proof (Hplain (" #k,@r//p:a,x,y" +:+ NL) [sample.line "b.proto" "@r//p:b"]
                eq_refl eq_refl eq_refl) as H5.
  destruct (Hrows (sample.line "a.proto" "@r//p:a" +:+ " # note" +:+ NL
                     +:+ sample.line "b.proto" "@r//p:b")
              (" # note" +:+ NL)) as [H6 _];
    [reflexivity
    |vm_compute; apply elem_of_cons; right; apply elem_of_cons; left; reflexivity
    |reflexivity|reflexivity|].
  split; [rewrite H1; vm_compute; reflexivity|].
  split; [rewrite H2; vm_compute; reflexivity|].
  split; [rewrite H3; vm_compute; reflexivity|].
  split; [exact H4|]. split; [exact H5|].
  apply H6. vm_compute. lia.
Defined.

Lemma plain_line_with_wrong_count_example :
  csv.ReadAll protoCsvReader sample.short = inl csv.ErrFieldCount.
Proof.
  apply (plain_line_with_wrong_count sample.short
           ("b.proto,@r//p:b,x" +:+ String LF EmptyString)).
  - reflexivity.
  - vm_compute. apply elem_of_cons. right. apply elem_of_cons. left. reflexivity.
  - reflexivity.
  - simpl. lia.
Defined.

(** C5 as it is stated does not hold: a line whose first non-blank
    character is [#] but which starts with a blank is read as a data row.
    Alone on its line it has one field and makes the reader, and the run,
    fail with the wrong-number-of-fields error; with three commas it is
    returned as a record.  The same line without the blank is skipped. *)
Lemma blank_before_hash_is_a_data_row :
  csv.firstNonBlankIsHash " # note" = true /\
  csv.ReadAll protoCsvReader (" # note" +:+ NL) = inl csv.ErrFieldCount /\
  csv.ReadAll protoCsvReader ("# note" +:+ NL) = inr [] /\
  csv.firstNonBlankIsHash " #k,@r//p:a,x,y" = true /\
  csv.ReadAll protoCsvReader (" #k,@r//p:a,x,y" +:+ NL)
  = inr [[" #k"; "@r//p:a"; "x"; "y"]] /\
  fst (sampleRun (sample.flagsOf 0 1)
         (sample.world (sample.line "a.proto" "@r//p:a" +:+ " # note" +:+ NL)))
  = Err (CsvError csv.ErrFieldCount) /\
  fst (sampleRun (sample.flagsOf 0 1)
         (sample.world (sample.line "a.proto" "@r//p:a" +:+ "# note" +:+ NL)))
  = Ok tt.
Proof. vm_compute. repeat split; reflexivity. Qed.

Lemma output_is_deterministic_example :
  fst (sampleRun
         (sample.flagsOf 0 1) (sample.world sample.repeated))
  = fst (sampleRun
           (sample.flagsOf 0 1) (sample.busyWorld sample.repeated)) /\
  exists text,
    files (snd (sampleRun
                  (sample.flagsOf 0 1) (sample.world sample.repeated)))
      !! sample.outputPath = Some text /\
    files (snd (sampleRun
                  (sample.flagsOf 0 1) (sample.busyWorld sample.repeated)))
      !! sample.outputPath = Some text.
Proof.
  destruct (output_is_deterministic sample.Parse sample.LabelString sample.Quote
            sample.noTemplateError
              (sample.flagsOf 0 1) (sample.world sample.repeated)
              (sample.busyWorld sample.repeated)) as (Hres & Hout & _).
  - vm_compute. reflexivity.
  - split; [apply Hres; vm_compute; reflexivity|].
    apply Hout.
    + vm_compute. reflexivity.
    + vm_compute. reflexivity.
Defined.

Lemma missing_flag_fails_before_io_example :
  (exists name,
     (name, EmptyString) ∈ requiredFlagValues
       (mkFlags sample.inputPath sample.outputPath "" "knownImports" 0 1) /\
     sampleRun
       (mkFlags sample.inputPath sample.outputPath "" "knownImports" 0 1)
       (sample.world sample.repeated)
     = (Err (Errorf ("-" +:+ name +:+ " not set")), sample.world sample.repeated)) /\
  (exists name,
     (name, EmptyString) ∈ requiredFlagValues defaultFlags /\
     sampleRun
       defaultFlags (sample.world sample.repeated)
     = (Err (Errorf ("-" +:+ name +:+ " not set")), sample.world sample.repeated)).
Proof.
  split.
  - apply (missing_flag_fails_before_io sample.Parse sample.LabelString sample.Quote
            sample.noTemplateError).
    right. right. left. reflexivity.
  - apply (missing_flag_fails_before_io sample.Parse sample.LabelString sample.Quote
            sample.noTemplateError).
    left. reflexivity.
Defined.

Lemma input_closed_right_after_reading_example :
  snd (snd (runTraced sample.Parse sample.LabelString sample.Quote
              sample.noTemplateError (sample.flagsOf 0 1)
              (sample.world sample.repeated, [])))
  = [FileOp (EvOpen sample.inputPath); FileOp (EvRead sample.inputPath);
     FileOp (EvClose sample.inputPath);
     CallParse "@r//p:a"; CallParse "@r//p:b"; CallParse "@r//p:a";
     CallExecute
       (dataOf (sample.flagsOf 0 1)
          [mkBinding "a.proto" sample.labelA; mkBinding "b.proto" sample.labelB]);
     FileOp (EvWriteFile sample.outputPath
               (render sample.Quote
                  (dataOf (sample.flagsOf 0 1)
                     [mkBinding "a.proto" sample.labelA;
                      mkBinding "b.proto" sample.labelB])))] /\
  snd (snd (runTraced sample.Parse sample.LabelString sample.Quote
              sample.noTemplateError (sample.flagsOf 0 1)
              (sample.world sample.short, [])))
  = [FileOp (EvOpen sample.inputPath); FileOp (EvRead sample.inputPath);
     FileOp (EvClose sample.inputPath)] /\
  fst (sampleRun (sample.flagsOf 0 1) (sample.world sample.short))
  = Err (CsvError csv.ErrFieldCount).
Proof.
  split.
  - destruct (input_closed_right_after_reading sample.Parse sample.LabelString
                sample.Quote sample.noTemplateError
                (sample.flagsOf 0 1) (sample.world sample.repeated) [] sample.repeated
                (required_sample_flags 0 1) eq_refl)
      as (_ & (later & Hcalls & _ & _ & Hok) & _).
    destruct (Hok [sample.recordA; sample.recordB; sample.recordA])
      as (values & rest & Hlater & Hvalues & Hrest); [vm_compute; reflexivity|].
    assert (Hloop : rangeRecords sample.Parse sample.LabelString 0 1
                      [sample.recordA; sample.recordB; sample.recordA] ∅ []
                    = Ok (<["b.proto" := sample.labelB]> (<["a.proto" := sample.labelA]> ∅),
                          [mkBinding "a.proto" sample.labelA;
                           mkBinding "b.proto" sample.labelB]))
      by (vm_compute; reflexivity).
    change (keyColumn (sample.flagsOf 0 1)) with 0 in Hrest.
    change (valueColumn (sample.flagsOf 0 1)) with 1 in Hrest, Hvalues.
    rewrite Hloop in Hrest. destruct Hrest as [Hlen Hrest].
    destruct values as [|v1 [|v2 [|v3 [|v4 values]]]]; try discriminate Hlen.
    simpl in Hvalues.
    inversion Hvalues as [|? ? ? ? H1 Hvalues2]; subst.
    inversion Hvalues2 as [|? ? ? ? H2 Hvalues3]; subst.
    inversion Hvalues3 as [|? ? ? ? H3 _]; subst.
    inversion H1; inversion H2; inversion H3; subst.
    rewrite Hcalls. reflexivity.
  - destruct (input_closed_right_after_reading sample.Parse sample.LabelString
                sample.Quote sample.noTemplateError
                (sample.flagsOf 0 1) (sample.world sample.short) [] sample.short
                (required_sample_flags 0 1) eq_refl)
      as (_ & (later & Hcalls & _ & Hbad & _) & _).
    destruct (Hbad csv.ErrFieldCount) as [-> Hrun]; [vm_compute; reflexivity|].
    split; [exact Hcalls|exact Hrun].
Defined.

Lemma unguarded_column_index_example :
  sampleRun
    (sample.flagsOf 0 4) (sample.world sample.repeated)
  = (Panic (IndexOutOfRange 4 4),
     afterReading sample.inputPath (sample.world sample.repeated)) /\
  sampleRun
    (sample.flagsOf (-1) 1) (sample.world sample.repeated)
  = (Panic (IndexOutOfRange (-1) 4),
     afterReading sample.inputPath (sample.world sample.repeated)) /\
  forall p,
    fst (sampleRun
           (sample.flagsOf 3 1) (sample.world sample.repeated)) <> Panic p.
Proof.
  split; [|split].
  - refine (proj2 (unguarded_column_index sample.Parse sample.LabelString sample.Quote
            sample.noTemplateError
              (sample.flagsOf 0 4) (sample.world sample.repeated) sample.repeated
              [sample.recordA; sample.recordB; sample.recordA]
              (required_sample_flags 0 4) eq_refl _) _ _).
    + vm_compute. reflexivity.
    + discriminate.
    + simpl. lia.
  - refine (proj2 (unguarded_column_index sample.Parse sample.LabelString sample.Quote
            sample.noTemplateError
              (sample.flagsOf (-1) 1) (sample.world sample.repeated) sample.repeated
              [sample.recordA; sample.recordB; sample.recordA]
              (required_sample_flags (-1) 1) eq_refl _) _ _).
    + vm_compute. reflexivity.
    + discriminate.
    + simpl. lia.
  - refine (proj2 (proj1 (unguarded_column_index sample.Parse sample.LabelString sample.Quote
            sample.noTemplateError
              (sample.flagsOf 3 1) (sample.world sample.repeated) sample.repeated
              [sample.recordA; sample.recordB; sample.recordA]
              (required_sample_flags 3 1) eq_refl _) _ _)).
    + vm_compute. reflexivity.
    + simpl. lia.
    + simpl. lia.
Defined.

Lemma parse_error_before_duplicate_check_example :
  (exists seen bindings,
     rangeRecords sample.Parse sample.LabelString 0 1 [sample.recordA] ∅ []
     = Ok (seen, bindings) /\
     seen !! "a.proto" = Some sample.labelA) /\
  sampleRun (sample.flagsOf 0 1) (sample.world sample.unparsable)
  = (Err (Errorf "label parse error: p:a"),
     afterReading sample.inputPath (sample.world sample.unparsable)).
Proof.
  split.
  - eexists. eexists. split; vm_compute; reflexivity.
  - refine (proj2 (proj2 (parse_error_before_duplicate_check
              sample.Parse sample.LabelString sample.Quote
              sample.noTemplateError
              (sample.flagsOf 0 1) (sample.world sample.unparsable) sample.unparsable
              [sample.recordA] sample.recordBad [] "a.proto" "p:a"
              (Errorf "label parse error: p:a")
              (required_sample_flags 0 1) eq_refl _ eq_refl eq_refl eq_refl)) _).
    + vm_compute. reflexivity.
    + eexists. vm_compute. reflexivity.
Defined.

Lemma bindings_and_seen_agree_example :
  NoDup (map Import [mkBinding "a.proto" sample.labelA; mkBinding "b.proto" sample.labelB]) /\
  (<["b.proto" := sample.labelB]> (<["a.proto" := sample.labelA]> ∅)
     : gmap string label.Label) !! "b.proto" = Some sample.labelB /\
  size (<["b.proto" := sample.labelB]> (<["a.proto" := sample.labelA]> ∅)
          : gmap string label.Label) = 2%nat.
Proof.
  destruct (bindings_and_seen_agree sample.Parse sample.LabelString 0 1
              [sample.recordA; sample.recordB; sample.recordA]
              (<["b.proto" := sample.labelB]> (<["a.proto" := sample.labelA]> ∅))
              [mkBinding "a.proto" sample.labelA; mkBinding "b.proto" sample.labelB])
    as (Hnd & Hiff & Hsize & _).
  - vm_compute. reflexivity.
  - split; [exact Hnd|]. split; [|exact Hsize].
    apply Hiff. apply elem_of_cons. right. apply elem_of_cons. left. reflexivity.
Defined.

Lemma row_order_only_orders_bindings_example :
  exists bindings',
    rangeRecords sample.Parse sample.LabelString 0 1
      [sample.recordA; sample.recordB] ∅ []
    = Ok (<["a.proto" := sample.labelA]> (<["b.proto" := sample.labelB]> ∅), bindings') /\
    [mkBinding "b.proto" sample.labelB; mkBinding "a.proto" sample.labelA] ≡ₚ bindings'.
Proof.
  apply (row_order_only_orders_bindings sample.Parse sample.LabelString 0 1
           [sample.recordB; sample.recordA] [sample.recordA; sample.recordB]).
  - apply perm_swap.
  - vm_compute. reflexivity.
Defined.

Lemma loop_errors_are_parse_errors_or_conflicts_example :
  (exists rec v,
     rec ∈ [sample.recordA; sample.recordA'] /\ index rec 1 = Ok v /\
     sample.Parse v
     = inl (Errorf "for key a.proto, multiple values (@r//p:a and @r//p:b)")) \/
  (exists rec1 rec2 k l1 l2,
     rec1 ∈ [sample.recordA; sample.recordA'] /\
     rec2 ∈ [sample.recordA; sample.recordA'] /\
     rowBinding sample.Parse 0 1 rec1 = Some (mkBinding k l1) /\
     rowBinding sample.Parse 0 1 rec2 = Some (mkBinding k l2) /\
     l1 <> l2 /\
     Errorf "for key a.proto, multiple values (@r//p:a and @r//p:b)"
     = Errorf (multipleValues sample.LabelString k l1 l2)).
Proof.
  apply (loop_errors_are_parse_errors_or_conflicts sample.Parse sample.LabelString 0 1
           [sample.recordA; sample.recordA']).
  vm_compute. reflexivity.
Defined.

Lemma run_succeeds_exactly_when_example :
  sampleRun (sample.flagsOf 0 1) (sample.world sample.repeated)
  = (Ok tt,
     afterWriting sample.outputPath
       (render sample.Quote
          (dataOf (sample.flagsOf 0 1)
             [mkBinding "a.proto" sample.labelA; mkBinding "b.proto" sample.labelB]))
       (afterReading sample.inputPath (sample.world sample.repeated))).
Proof.
  apply (proj2 (run_succeeds_exactly_when sample.Parse sample.LabelString sample.Quote
                  sample.noTemplateError (sample.flagsOf 0 1)
                  (sample.world sample.repeated) _)).
  split; [apply required_sample_flags|].
  exists sample.repeated, [sample.recordA; sample.recordB; sample.recordA],
    [mkBinding "a.proto" sample.labelA; mkBinding "b.proto" sample.labelB;
     mkBinding "a.proto" sample.labelA].
  split; [reflexivity|]. split; [vm_compute; reflexivity|].
  split; [reflexivity|]. split.
  - intros b1 b2 H1 H2.
    repeat (apply elem_of_cons in H1 as [->|H1]); [| | |inversion H1];
      repeat (apply elem_of_cons in H2 as [->|H2]);
      try (inversion H2; fail); simpl; intros Heq;
      first [reflexivity|discriminate].
  - split; [reflexivity|]. split; [|reflexivity].
    simpl. apply not_elem_of_empty.
Defined.

Lemma run_errors_have_a_stage_example :
  firstFailure sample.Parse sample.LabelString sample.Quote sample.noTemplateError
    (sample.flagsOf 0 1) (sample.lockedWorld sample.repeated)
    (PathError "open" sample.outputPath EACCES) \/
  exists text,
    allStagesPassed sample.Parse sample.LabelString sample.Quote sample.noTemplateError
      (sample.flagsOf 0 1) (sample.lockedWorld sample.repeated) text /\
    knownImportsPath (sample.flagsOf 0 1)
      ∈ readonly (sample.lockedWorld sample.repeated) /\
    PathError "open" sample.outputPath EACCES
    = PathError "open" (knownImportsPath (sample.flagsOf 0 1)) EACCES.
Proof.
  apply (run_errors_have_a_stage sample.Parse sample.LabelString sample.Quote
           sample.noTemplateError (sample.flagsOf 0 1)
           (sample.lockedWorld sample.repeated)
           (PathError "open" sample.outputPath EACCES)
           (snd (sampleRun (sample.flagsOf 0 1) (sample.lockedWorld sample.repeated)))).
  vm_compute. reflexivity.
Defined.

Lemma run_panics_only_on_a_column_out_of_range_example :
  requiredFlags (sample.flagsOf 0 4) /\
  exists content rec records,
    files (sample.world sample.repeated) !! sample.inputPath = Some content /\
    csv.ReadAll protoCsvReader content = inr (rec :: records) /\
    ~ (0 <= 0 <= 3 /\ 0 <= 4 <= 3) /\
    IndexOutOfRange 4 4 = IndexOutOfRange (if bool_decide (0 <= 0 <= 3) then 4 else 0) 4 /\
    afterReading sample.inputPath (sample.world sample.repeated)
    = afterReading sample.inputPath (sample.world sample.repeated).
Proof.
  apply (run_panics_only_on_a_column_out_of_range sample.Parse sample.LabelString
           sample.Quote sample.noTemplateError (sample.flagsOf 0 4)
           (sample.world sample.repeated)).
  vm_compute. reflexivity.
Defined.

Lemma input_without_rows_gives_empty_table_example :
  csv.ReadAll protoCsvReader ("# import,label" +:+ NL +:+ NL +:+ "# the end") = inr [] /\
  sampleRun (sample.flagsOf 7 (-2))
    (sample.world ("# import,label" +:+ NL +:+ NL +:+ "# the end"))
  = (Ok tt,
     afterWriting sample.outputPath
       (render sample.Quote (dataOf (sample.flagsOf 0 1) []))
       (afterReading sample.inputPath
          (sample.world ("# import,label" +:+ NL +:+ NL +:+ "# the end")))).
Proof.
  destruct (input_without_rows_gives_empty_table sample.Parse sample.LabelString
              sample.Quote sample.noTemplateError (sample.flagsOf 0 1)
              (sample.world ("# import,label" +:+ NL +:+ NL +:+ "# the end"))
              ("# import,label" +:+ NL +:+ NL +:+ "# the end")) as [Hread Hrun].
  - apply required_sample_flags.
  - reflexivity.
  - vm_compute. repeat constructor.
  - reflexivity.
  - simpl. apply not_elem_of_empty.
  - split; [exact Hread|]. exact (Hrun 7 (-2)).
Defined.

Lemma output_over_input_breaks_the_next_run_example :
  (exists text,
     files (snd (sampleRun
                   (mkFlags sample.inputPath sample.inputPath "proto" "knownImports" 0 1)
                   (sample.world sample.repeated)))
       !! sample.inputPath = Some text /\
     csv.ReadAll protoCsvReader text = inl csv.ErrFieldCount) /\
  sampleRun (mkFlags sample.inputPath sample.inputPath "proto" "knownImports" 0 1)
    (snd (sampleRun
            (mkFlags sample.inputPath sample.inputPath "proto" "knownImports" 0 1)
            (sample.world sample.repeated)))
  = (Err (CsvError csv.ErrFieldCount),
     afterReading sample.inputPath
       (snd (sampleRun
               (mkFlags sample.inputPath sample.inputPath "proto" "knownImports" 0 1)
               (sample.world sample.repeated)))).
Proof.
  apply (output_over_input_breaks_the_next_run sample.Parse sample.LabelString
           sample.Quote sample.noTemplateError
           (mkFlags sample.inputPath sample.inputPath "proto" "knownImports" 0 1)
           (sample.world sample.repeated)).
  - reflexivity.
  - vm_compute. reflexivity.
Defined.

Lemma rows_again_add_nothing_example :
  rangeRecords sample.Parse sample.LabelString 0 1
    ([sample.recordA; sample.recordB] ++ [sample.recordB; sample.recordB]) ∅ []
  = Ok (<["b.proto" := sample.labelB]> (<["a.proto" := sample.labelA]> ∅),
        [mkBinding "a.proto" sample.labelA; mkBinding "b.proto" sample.labelB]) /\
  rangeRecords sample.Parse sample.LabelString 0 1
    ([sample.recordA; sample.recordB] ++ [sample.recordA; sample.recordB]) ∅ []
  = Ok (<["b.proto" := sample.labelB]> (<["a.proto" := sample.labelA]> ∅),
        [mkBinding "a.proto" sample.labelA; mkBinding "b.proto" sample.labelB]).
Proof.
  apply (rows_again_add_nothing sample.Parse sample.LabelString 0 1
           [sample.recordA; sample.recordB] [sample.recordB; sample.recordB]).
  - vm_compute. reflexivity.
  - intros rec Hrec.
    repeat (apply elem_of_cons in Hrec as [->|Hrec]);
      [| |inversion Hrec]; apply elem_of_cons; right; apply elem_of_cons; left; reflexivity.
Defined.
